(** * blobs: colour conversion, oscillators, macros and flock operations

    A shallow embedding of [blobs.js] and proofs about it.  The first part
    of the file holds the definitions, one module per component of the
    program; the second part holds the lemmas.

    Numbers.  JavaScript numbers are modelled as exact rationals ([Q])
    wherever the code only adds, multiplies, divides, compares and rounds
    them, so that the definitions can be evaluated.  Results on [Q] are
    stated up to [==], the equality of fractions.  The flock operations call
    [Math.atan2], which leaves the rationals: the blobs are modelled over
    the real numbers ([R]).  Rounding errors of the IEEE doubles, NaN and
    the infinities are outside of the model.  A real number that is zero
    has no sign; where the sign of a zero decides the result, in
    [Math.atan2], it is an argument of the model.

    State.  The constructor functions of the source ([LFO], [Macro],
    [MacroRecording]) keep their state in closure variables and in fields of
    [this]; here the state is a record and a method maps a record to the
    updated record.  [Date.now()] is an argument of the methods that read
    the clock. *)

From Stdlib Require Import ZArith QArith Qminmax Qround Qabs Lia.
From Stdlib Require Import Reals Psatz.
From Stdlib Require Import Ascii.
From stdpp Require Import base list gmap strings.

(** * Part I: the program *)

(** ** Numbers *)

(** [Math.floor]; the result is an integer. *)
Definition Math_floor (x : Q) : Z := Qfloor x.

(** [Math.round]: the nearest integer, a half rounded towards plus
    infinity, that is floor(x + 1/2). *)
Definition Math_round (x : Q) : Z := Qfloor (x + (1 # 2)).

(** [x < y] on numbers, as a boolean. *)
Definition Qltb (x y : Q) : bool := negb (Qle_bool y x).

(** ** Colour conversion *)

Module ColourConverter.
Local Open Scope Q_scope.

(** [hsvToRgb(h, s, v)]: the array of the three channels red, green and
    blue, as a triple. *)
Definition hsvToRgb (h s v : Q) : Z * Z * Z :=
  (* Make sure our arguments stay in-range *)
  let h := Qmax 0 (Qmin 360 h) in
  let s := Qmax 0 (Qmin 100 s) in
  let v := Qmax 0 (Qmin 100 v) in
  let s := s / 100 in
  let v := v / 100 in
  if Qeq_bool s 0 then
    (* Achromatic (grey) *)
    (Math_round (v * 255), Math_round (v * 255), Math_round (v * 255))
  else
    let h := h / 60 in (* sector 0 to 5 *)
    let i := Math_floor h in
    let f := h - inject_Z i in
    let p := v * (1 - s) in
    let q := v * (1 - s * f) in
    let t := v * (1 - s * (1 - f)) in
    let '(r, g, b) :=
      match i with
      | 0%Z => (v, t, p)
      | 1%Z => (q, v, p)
      | 2%Z => (p, v, t)
      | 3%Z => (p, q, v)
      | 4%Z => (t, p, v)
      | _ => (v, p, q)
      end in
    (Math_round (r * 255), Math_round (g * 255), Math_round (b * 255)).

(** A channel of a displayable colour: an integer from 0 to 255. *)
Definition channel (c : Z) : Prop := (0 <= c <= 255)%Z.

(** The object built by [Colour]: the HSV triple and the converted colour
    (the source keeps it as the string [rbgString]). *)
Record Colour := {
  hue : Q;
  sat : Q;
  val : Q;
  rgb : Z * Z * Z
}.

(** Numbers between 0 and 1. *)
Definition unit (a : Q) : Prop := 0 <= a <= 1.

(** [a % n] on numbers, for [n] other than 0: what is left of [a] when the
    multiples of [n] in it, counted towards zero, are taken away.  The
    result has the sign of [a]. *)
Definition Number_rem (a n : Q) : Q :=
  a - n * inject_Z (Z.quot (Qnum (a / n)) (Zpos (Qden (a / n)))).

(** [Colour.update(h, s, v)]; the constructor [Colour(h, s, v)] does nothing
    else than this call.  The fields that the call finds are overwritten,
    so the object is a function of the arguments. *)
Definition Colour_update (h s v : Q) : Colour :=
  let hue := Number_rem h 360 in
  {| hue := hue; sat := s; val := v; rgb := hsvToRgb hue s v |}.

End ColourConverter.

(** ** Oscillators *)

Module Oscillator.
Local Open Scope Q_scope.

(** The arguments of [LFO] and its two closure variables. *)
Record LFO := {
  minValue : Q;
  maxValue : Q;
  speed : Q;
  loopRound : bool;
  value : Q;
  direction : Q
}.

(** [new LFO(minValue, maxValue, speed, callback, loopRound)]. *)
Definition new (minValue maxValue speed : Q) (loopRound : bool) : LFO :=
  {| minValue := minValue; maxValue := maxValue; speed := speed;
     loopRound := loopRound;
     value := (minValue + maxValue) / 2;
     direction := 1 |}.

(** [update(dt)].  The callback is called with the [value] of the result. *)
Definition update (o : LFO) (dt : Q) : LFO :=
  let change := speed o * dt in
  let value := value o + change * direction o in
  let direction := direction o in
  (* Make sure the value has not gone out of range *)
  let '(value, direction) :=
    if Qltb (maxValue o) value then
      let extra := value - maxValue o in
      if loopRound o then (minValue o + extra, direction)
      else (maxValue o - extra, direction * -1)
    else (value, direction) in
  (* (Same as above but for min value) *)
  let '(value, direction) :=
    if Qltb value (minValue o) then
      let extra := minValue o - value in
      (minValue o + extra, direction * -1)
    else (value, direction) in
  {| minValue := minValue o; maxValue := maxValue o; speed := speed o;
     loopRound := loopRound o;
     value := value;
     direction := direction |}.

(** The oscillator after a sequence of calls of [update]. *)
Definition run (o : LFO) (dts : list Q) : LFO := fold_left update dts o.

(** The values handed to the callback by a sequence of calls of [update],
    one per call. *)
Fixpoint callbacks (o : LFO) (dts : list Q) : list Q :=
  match dts with
  | [] => []
  | dt :: dts' => value (update o dt) :: callbacks (update o dt) dts'
  end.

(** The value is between the bounds. *)
Definition in_range (o : LFO) (v : Q) : Prop :=
  minValue o <= v /\ v <= maxValue o.

(** The state of an oscillator that is at rest between two calls: the
    bounds are in order, the value is between them and the direction is
    +1 or -1. *)
Definition steady (o : LFO) : Prop :=
  minValue o <= maxValue o /\
  in_range o (value o) /\
  (direction o == 1 \/ direction o == -1).

(** A call whose change is at most the distance between the bounds. *)
Definition short_step (o : LFO) (dt : Q) : Prop :=
  Qabs (speed o * dt) <= maxValue o - minValue o.

(** A wrap oscillator that only moves forward: the direction is the one
    the constructor gave it and the value is not below the lower bound. *)
Definition forward (o : LFO) : Prop :=
  loopRound o = true /\
  direction o = 1 /\
  minValue o <= maxValue o /\
  minValue o <= value o.

(** The sum of the changes [speed * dt] of a sequence of calls. *)
Definition total_change (speed : Q) (dts : list Q) : Q :=
  fold_right (fun dt acc => speed * dt + acc) 0 dts.

End Oscillator.

(** ** Key names *)

(** A key code as the program handles it: [None] is [undefined], which is
    what [KEY_NAMES[name]] gives for a name that is not in the table. *)
Definition keyCode : Type := option Z.

Definition KEY_NAMES : gmap string Z :=
  list_to_map [
    ("pause", 16%Z); (* shift *)
    ("randomise", 82%Z); (* r *)
    ("center", 67%Z); (* c *)
    ("slow", 83%Z); (* s *)
    ("wavy", 87%Z); (* w *)
    ("settings", 79%Z); (* o *)
    ("toggleClear", 75%Z); (* k *)
    ("help", 72%Z); (* h *)
    ("toggleSymmetry", 89%Z); (* y *)
    ("reverse", 86%Z); (* v *)
    ("randomiseSpeed", 81%Z); (* q *)
    ("startMacro", 77%Z); (* m *)
    ("esc", 27%Z) (* esc *)
  ].

(** The entries of [KEY_NAMES], in the order of the source, which is the
    order of a [for ... in] loop over the object. *)
Definition KEY_NAMES_entries : list (string * Z) :=
  [("pause", 16%Z); ("randomise", 82%Z); ("center", 67%Z); ("slow", 83%Z);
   ("wavy", 87%Z); ("settings", 79%Z); ("toggleClear", 75%Z);
   ("help", 72%Z); ("toggleSymmetry", 89%Z); ("reverse", 86%Z);
   ("randomiseSpeed", 81%Z); ("startMacro", 77%Z); ("esc", 27%Z)].

(** [getKeyFriendlyName(code)]: the first name of the table whose code is
    [code]; [None] is [null]. *)
Definition getKeyFriendlyName (code : Z) : option string :=
  fst <$> List.find (fun entry => Z.eqb entry.2 code) KEY_NAMES_entries.

(** [getKeyName(code)]: the name of a key for the help; [None] is
    [undefined], the result of a function that ends without [return]. *)
Definition getKeyName (code : Z) : option string :=
  if (65 <=? code)%Z && (code <=? 90)%Z then
    Some (String (Ascii.ascii_of_N (Z.to_N code)) EmptyString)
  else
    (* The key is not alphabetic *)
    match code with
    | 16%Z => Some "Shift"
    | 27%Z => Some "Esc"
    | _ => None
    end.

(** ** Macros *)

Module MacroPlayer.
Local Open Scope Q_scope.

(** The [type] of a move on a key. *)
Inductive KeyType := keyup | keydown.

(** A move: an object with the keys [time], [type] and, depending on the
    type, [key] or [coords]. *)
Inductive Move :=
| KeyMove (time : Q) (type : KeyType) (key : string)
| ClickMove (time : Q) (coords : Q * Q).

Definition time (mv : Move) : Q :=
  match mv with
  | KeyMove t _ _ => t
  | ClickMove t _ => t
  end.

(** The field [moves], the closure variables [position] and [startIndex]
    ([None] until [start] is called: the variable is declared without a
    value) and the field [started]. *)
Record Macro := {
  moves : list Move;
  position : Q;
  startIndex : option nat;
  started : bool
}.

(** [new Macro(moves)]. *)
Definition new (moves : list Move) : Macro :=
  {| moves := moves; position := 0; startIndex := None; started := false |}.

(** [start()]. *)
Definition start (m : Macro) : Macro :=
  {| moves := moves m; position := 0; startIndex := Some 0%nat;
     started := true |}.

(** What [handleKeypress(keyCode)] does to the current macro, which is the
    macro that [mainUpdate] updates: only the case [KEY_NAMES.startMacro]
    touches it.  The other cases act on the blobs, the settings and the
    dialogs. *)
Definition handleKeypress (code : keyCode) (m : Macro) : Macro :=
  if bool_decide (code = KEY_NAMES !! "startMacro") then start m else m.

(** The [switch] of [update] on the type of the move, as far as the macro
    is concerned: a [keydown] sets the key in [pressedKeys] and calls
    [handleKeypress]; a [keyup] deletes the key from [pressedKeys] and a
    [click] calls [handleClick], which leave the macro as it is. *)
Definition perform (mv : Move) (m : Macro) : Macro :=
  match mv with
  | KeyMove _ keydown key => handleKeypress (KEY_NAMES !! key) m
  | KeyMove _ keyup _ => m
  | ClickMove _ _ => m
  end.

(** The moves that start the macro again when they are performed. *)
Definition restarts (mv : Move) : bool :=
  match mv with
  | KeyMove _ keydown key =>
      bool_decide (KEY_NAMES !! key = KEY_NAMES !! "startMacro")
  | _ => false
  end.

(** [startIndex++] and the test that follows it. *)
Definition advance (m : Macro) : Macro :=
  let startIndex := option_map S (startIndex m) in
  {| moves := moves m; position := position m;
     startIndex := startIndex;
     started :=
       if bool_decide (startIndex = Some (length (moves m))) then false
       else started m |}.

(** The [for] loop of [update] from index [i] on: [rest] is [this.moves]
    from [i].  The moves performed are added to [performed], in the order
    in which they are performed. *)
Fixpoint loop (rest : list Move) (m : Macro) (performed : list Move)
  : Macro * list Move :=
  match rest with
  | [] => (m, performed)
  | mv :: rest' =>
      if Qltb (time mv) (position m) then
        loop rest' (advance (perform mv m)) (performed ++ [mv])
      else
        loop rest' m performed
  end.

(** [update(dt)]: the macro after the call and the moves performed by the
    call.  With [startIndex] undefined the test [i < this.moves.length] of
    the loop is false from the beginning. *)
Definition update (m : Macro) (dt : Q) : Macro * list Move :=
  let '(m', performed) :=
    match startIndex m with
    | Some i => loop (drop i (moves m)) m []
    | None => (m, [])
    end in
  ({| moves := moves m'; position := position m' + dt;
      startIndex := startIndex m'; started := started m' |}, performed).

(** A sequence of calls of [update]: for each call, in order, the moves it
    performed and the field [started] after it; and the macro at the
    end. *)
Fixpoint ticks (m : Macro) (dts : list Q)
  : Macro * list (list Move * bool) :=
  match dts with
  | [] => (m, [])
  | dt :: dts' =>
      let '(m', performed) := update m dt in
      let '(m'', log) := ticks m' dts' in
      (m'', (performed, started m') :: log)
  end.

(** The moves that are due when the time elapsed is [elapsed]. *)
Definition due (elapsed : Q) (mvs : list Move) : list Move :=
  List.filter (fun mv => Qltb (time mv) elapsed) mvs.

(** The macro after the loop of [update] has performed [n] moves from the
    index [i] on. *)
Definition after (m : Macro) (i n : nat) : Macro :=
  {| moves := moves m; position := position m;
     startIndex := Some (i + n)%nat;
     started :=
       if bool_decide (0 < n /\ i + n = length (moves m))%nat then false
       else started m |}.

(** A macro of three moves, at the times 0, 1 and 2. *)
Definition three_moves : list Move :=
  [ClickMove 0 (50, 50); KeyMove 1 keydown "pause"; KeyMove 2 keyup "pause"].

(** The moves are in the order of their times. *)
Fixpoint in_order (mvs : list Move) : Prop :=
  match mvs with
  | [] => True
  | mv :: rest => Forall (fun mv' => time mv <= time mv') rest /\ in_order rest
  end.

(** The time that a sequence of calls of [update] adds. *)
Definition total_time (dts : list Q) : Q := fold_right Qplus 0 dts.

(** The moves that a sequence of calls has performed, in order. *)
Definition performed_by (log : list (list Move * bool)) : list Move :=
  concat (fst <$> log).

(** A macro that has been started, [k] moves of [mvs] ago: these are the
    first [k] moves, their time has come, and the macro is running unless
    it has performed the last move. *)
Definition playing (mvs : list Move) (m : Macro) (k : nat) : Prop :=
  moves m = mvs /\
  startIndex m = Some k /\
  (k <= length mvs)%nat /\
  Forall (fun mv => time mv < position m) (take k mvs) /\
  (started m = false <-> (0 < k /\ k = length mvs)%nat).

End MacroPlayer.

(** ** Recording of macros *)

Module MacroRecorder.
Import MacroPlayer.
Local Open Scope Q_scope.

(** The field [moves] and the closure variable [startTime], in
    milliseconds ([None] is [null]). *)
Record MacroRecording := {
  moves : list Move;
  startTime : option Z
}.

(** [new MacroRecording()]. *)
Definition new : MacroRecording := {| moves := []; startTime := None |}.

(** [getTime()] when [Date.now()] is [now]: the time of an event happening
    right now, and [startTime] after the call. *)
Definition getTime (now : Z) (r : MacroRecording) : Q * option Z :=
  match startTime r with
  | None => (0, Some now)
  | Some t0 => (inject_Z (now - t0) / 1000, Some t0)
  end.

(** [addClick(x, y)]. *)
Definition addClick (now : Z) (x y : Q) (r : MacroRecording)
  : MacroRecording :=
  let '(t, startTime) := getTime now r in
  {| moves := moves r ++ [ClickMove t (x, y)]; startTime := startTime |}.

(** [addKeyEvent(keyName, type)]. *)
Definition addKeyEvent (now : Z) (keyName : string) (type : KeyType)
    (r : MacroRecording) : MacroRecording :=
  let '(t, startTime) := getTime now r in
  {| moves := moves r ++ [KeyMove t type keyName]; startTime := startTime |}.

(** The surface: [canvas.width] and [canvas.height]. *)
Record Canvas := {
  width : Q;
  height : Q
}.

(** The listener of the clicks on the canvas, as far as the recording is
    concerned ([macroRecording] is [None] when it is [null]); [x] and [y]
    are [event.offsetX] and [event.offsetY]. *)
Definition onClick (canvas : Canvas) (now : Z) (x y : Q)
    (macroRecording : option MacroRecording) : option MacroRecording :=
  match macroRecording with
  | Some r =>
      Some (addClick now (100 * x / width canvas) (100 * y / height canvas) r)
  | None => None
  end.

(** A call of one of the two methods that add an event. *)
Inductive Call :=
| AddClick (x y : Q)
| AddKeyEvent (keyName : string) (type : KeyType).

Definition call (r : MacroRecording) (c : Z * Call) : MacroRecording :=
  match c with
  | (now, AddClick x y) => addClick now x y r
  | (now, AddKeyEvent keyName type) => addKeyEvent now keyName type r
  end.

(** The recording after a sequence of calls, each with the value of
    [Date.now()] at the moment of the call. *)
Definition record (r : MacroRecording) (calls : list (Z * Call))
  : MacroRecording :=
  fold_left call calls r.

(** The move that a call adds when the time of the event is [t]. *)
Definition event (t : Q) (c : Call) : Move :=
  match c with
  | AddClick x y => ClickMove t (x, y)
  | AddKeyEvent keyName type => KeyMove t type keyName
  end.

(** The time, in seconds, from the instant [t0] to the instant [now], both
    in milliseconds. *)
Definition seconds_since (t0 now : Z) : Q := inject_Z (now - t0) / 1000.

(** The instants of a clock that does not go back. *)
Fixpoint ascending (nows : list Z) : Prop :=
  match nows with
  | [] => True
  | now :: rest => Forall (fun now' => (now <= now')%Z) rest /\ ascending rest
  end.

(** What [Macro.update] does with a move that it performs, the [switch]
    on the type of the move: a [keyup] deletes the key from
    [pressedKeys], a [keydown] sets it there and calls [handleKeypress]
    with it, a [click] calls [handleClick]. *)
Inductive Action :=
| Release (code : keyCode)
| Press (code : keyCode)
| ClickAt (x y : Q).

Definition dispatch (canvas : Canvas) (mv : Move) : Action :=
  match mv with
  | KeyMove _ keyup key => Release (KEY_NAMES !! key)
  | KeyMove _ keydown key => Press (KEY_NAMES !! key)
  | ClickMove _ coords =>
      (* Coordinates go from 0-100 as a percentage of width/height *)
      let x := coords.1 * width canvas / 100 in
      let y := coords.2 * height canvas / 100 in
      ClickAt x y
  end.

End MacroRecorder.

(** ** Blobs and the operations on the flock *)

Module Flock.
Local Open Scope R_scope.

(** The sign of a number that is zero. *)
Inductive ZeroSign := PlusZero | MinusZero.

(** [Math.atan2(y, x)], from its definition in the language standard: the
    angle, in radians between -PI and PI, from the positive x-axis to the
    point (x, y).  Where an argument is zero the standard goes by the sign
    of the zero.  [zero] is the sign of [x] when [x] is zero.  A [y] that
    is zero is taken as +0: the program passes [x - blobs[i].x] there, and
    the difference of two equal numbers is +0 (a coordinate that is itself
    -0 is outside of the model, which has one zero for the coordinates).
    So [Math.atan2(+0, x)] is +0 for a positive [x] and PI for a negative
    one, [Math.atan2(+0, +0)] is +0 and [Math.atan2(+0, -0)] is PI; for a
    [y] that is not zero and an [x] that is zero, of either sign, the
    result is PI/2 or -PI/2. *)
Definition atan2 (y x : R) (zero : ZeroSign) : R :=
  if Rlt_dec 0 x then atan (y / x)
  else if Rlt_dec x 0 then
    if Rle_dec 0 y then atan (y / x) + PI else atan (y / x) - PI
  else
    if Rlt_dec 0 y then PI / 2
    else if Rlt_dec y 0 then - PI / 2
    else
      match zero with
      | PlusZero => 0
      | MinusZero => PI
      end.

(** The fields of a [Blob]. *)
Record Blob := {
  x : R;
  y : R;
  bearing : R;
  colour : ColourConverter.Colour;
  bearingShift : R;
  extraSpeed : R
}.

(** [for (var i in arr) { arr[i] = body(arr[i]) }]: the loop goes through
    the indices of the array and updates the element at each of them. *)
Definition for_in {A : Type} (body : A -> A) (arr : list A) : list A :=
  fold_left (fun arr i => alter body i arr) (seq 0 (length arr)) arr.

(** [attractBlobs(blobs, x, y)].  [dy] is the opposite of a difference:
    when the difference is zero it is +0, and [dy] is -0. *)
Definition attractBlobs (blobs : list Blob) (x y : R) : list Blob :=
  for_in (fun b =>
    let dx := x - b.(Flock.x) in
    let dy := - (y - b.(Flock.y)) in
    {| x := b.(Flock.x); y := b.(Flock.y);
       bearing := atan2 dx dy MinusZero;
       colour := b.(colour); bearingShift := b.(bearingShift);
       extraSpeed := b.(extraSpeed) |}) blobs.

(** [moveBlobs(blobs, x, y)]. *)
Definition moveBlobs (blobs : list Blob) (x y : R) : list Blob :=
  for_in (fun b =>
    {| x := x; y := y;
       bearing := b.(bearing);
       colour := b.(colour); bearingShift := b.(bearingShift);
       extraSpeed := b.(extraSpeed) |}) blobs.

(** [handleClick(x, y)] on the global variables [pressedKeys], an object
    used as the set of the key codes that are down, and [blobs]. *)
Definition handleClick (pressedKeys : gset keyCode) (blobs : list Blob)
    (x y : R) : list Blob :=
  if bool_decide (KEY_NAMES !! "pause" ∈ pressedKeys) then
    moveBlobs blobs x y
  else
    attractBlobs blobs x y.

(** The position of a blob. *)
Definition position (b : Blob) : R * R := (b.(x), b.(y)).

(** The blob [b] with its bearing towards the point ([x], [y]). *)
Definition towards (x y : R) (b : Blob) : Blob :=
  {| Flock.x := b.(Flock.x); Flock.y := b.(Flock.y);
     bearing := atan2 (x - b.(Flock.x)) (- (y - b.(Flock.y))) MinusZero;
     colour := b.(colour); bearingShift := b.(bearingShift);
     extraSpeed := b.(extraSpeed) |}.

(** The blob [b] at the point ([x], [y]). *)
Definition at_point (x y : R) (b : Blob) : Blob :=
  {| Flock.x := x; Flock.y := y;
     bearing := b.(bearing);
     colour := b.(colour); bearingShift := b.(bearingShift);
     extraSpeed := b.(extraSpeed) |}.

(** The part of [settings.blob] that [Blob.update] reads. *)
Record BlobSettings := {
  speed : R;
  slowSpeed : R
}.

(** [Blob.update(dt)], with the globals [settings] and [pressedKeys]. *)
Definition Blob_update (settings : BlobSettings) (pressedKeys : gset keyCode)
    (dt : R) (b : Blob) : Blob :=
  (* Move this blob if the pause key is not down *)
  if bool_decide (KEY_NAMES !! "pause" ∈ pressedKeys) then b
  else
    let speed :=
      if bool_decide (KEY_NAMES !! "slow" ∈ pressedKeys)
      then settings.(slowSpeed) else settings.(speed) in
    let speed :=
      if bool_decide (KEY_NAMES !! "randomiseSpeed" ∈ pressedKeys)
      then speed + b.(extraSpeed) (* Add the extra speed *)
      else speed in
    let bearing := b.(bearing) + b.(bearingShift) in
    {| x := b.(x) + sin bearing * speed * dt;
       y := b.(y) - cos bearing * speed * dt;
       bearing := b.(Flock.bearing);
       colour := b.(colour); bearingShift := b.(bearingShift);
       extraSpeed := b.(extraSpeed) |}.

(** The loop of [mainUpdate] over the blobs. *)
Definition updateBlobs (settings : BlobSettings) (pressedKeys : gset keyCode)
    (dt : R) (blobs : list Blob) : list Blob :=
  for_in (Blob_update settings pressedKeys dt) blobs.

(** The speed of a blob, as [Blob.update] works it out. *)
Definition speed_of (settings : BlobSettings) (pressedKeys : gset keyCode)
    (b : Blob) : R :=
  (if bool_decide (KEY_NAMES !! "slow" ∈ pressedKeys)
   then settings.(slowSpeed) else settings.(speed))
  + (if bool_decide (KEY_NAMES !! "randomiseSpeed" ∈ pressedKeys)
     then b.(extraSpeed) else 0).

(** The case [KEY_NAMES.reverse] of [handleKeypress]. *)
Definition reverseBlobs (blobs : list Blob) : list Blob :=
  for_in (fun b =>
    {| x := b.(x); y := b.(y);
       bearing := b.(bearing) + PI;
       colour := b.(colour); bearingShift := b.(bearingShift);
       extraSpeed := b.(extraSpeed) |}) blobs.

(** The callback of the oscillator of the hue, in [setup]. *)
Definition setHue (value : Q) (blobs : list Blob) : list Blob :=
  for_in (fun b =>
    {| x := b.(x); y := b.(y);
       bearing := b.(bearing);
       colour :=
         ColourConverter.Colour_update value
           (ColourConverter.sat b.(colour)) (ColourConverter.val b.(colour));
       bearingShift := b.(bearingShift);
       extraSpeed := b.(extraSpeed) |}) blobs.

(** The centres of the discs that [Blob.draw] fills on a canvas of the
    given width and height, in the order in which it fills them. *)
Definition draw_coords (width height : R) (symmetry : bool) (b : Blob)
  : list (R * R) :=
  [(b.(x), b.(y))]
  ++ (if symmetry then
        (* Reflect this blob in all 4 quadrant of the canvas *)
        [(b.(x), height - b.(y));
         (width - b.(x), b.(y));
         (width - b.(x), height - b.(y))]
      else []).

(** The distance between two points. *)
Definition distance (p q : R * R) : R :=
  sqrt ((q.1 - p.1)² + (q.2 - p.2)²).

End Flock.

(** ** The listeners of the keyboard *)

Module Keyboard.
Import MacroPlayer MacroRecorder Flock.

Section Listeners.

(** The globals that the listeners do not touch themselves (the settings,
    the dialog shown, the current macro, the oscillators), and
    [handleKeypress] as a function on the globals that it can change: the
    blobs, the recording, which [setup] replaces when the settings are
    saved, and the former.  It does not read or write [pressedKeys]. *)
Variable World : Type.
Variable handleKeypress :
  Z -> list Blob * option MacroRecording * World ->
  list Blob * option MacroRecording * World.

(** The globals [pressedKeys], [blobs] and [macroRecording] ([None] is
    [null]), and the other ones. *)
Record Sim := {
  pressedKeys : gset keyCode;
  blobs : list Blob;
  macroRecording : option MacroRecording;
  world : World
}.

(** The lines that record a key event in both listeners. *)
Definition recordKey (now : Z) (code : Z) (type : KeyType)
    (macroRecording : option MacroRecording) : option MacroRecording :=
  match macroRecording, getKeyFriendlyName code with
  | Some r, Some friendlyName => Some (addKeyEvent now friendlyName type r)
  | _, _ => macroRecording
  end.

(** The listener of [keydown]; [code] is [event.keyCode] and [now] is
    [Date.now()]. *)
Definition onKeydown (now : Z) (code : Z) (s : Sim) : Sim :=
  if bool_decide (Some code ∈ pressedKeys s) then s
  else
    (* We only need to call handleKeypress once *)
    let '(blobs, macroRecording, world) :=
      handleKeypress code (blobs s, macroRecording s, world s) in
    {| pressedKeys := {[ Some code ]} ∪ pressedKeys s;
       blobs := blobs;
       macroRecording := recordKey now code keydown macroRecording;
       world := world |}.

(** The listener of [keyup]. *)
Definition onKeyup (now : Z) (code : Z) (s : Sim) : Sim :=
  {| pressedKeys := pressedKeys s ∖ {[ Some code ]};
     blobs :=
       (* Reset the bearing shift on all blobs when stopping wavy mode *)
       if bool_decide (Some code = KEY_NAMES !! "wavy") then
         for_in (fun b =>
           {| x := b.(x); y := b.(y); bearing := b.(bearing);
              colour := b.(colour); bearingShift := 0%R;
              extraSpeed := b.(extraSpeed) |}) (blobs s)
       else blobs s;
     macroRecording := recordKey now code keyup (macroRecording s);
     world := world s |}.

End Listeners.

Arguments pressedKeys {World} _.
Arguments blobs {World} _.
Arguments macroRecording {World} _.
Arguments world {World} _.
Arguments onKeydown {World} _ _ _ _.
Arguments onKeyup {World} _ _ _.

End Keyboard.

(** ** Class names *)

Module ClassNames.

(** [s.split(" ")]: the pieces of [s] between its spaces; there is always
    at least one piece, and a piece may be empty. *)
Fixpoint split (s : string) : list string :=
  match s with
  | EmptyString => [EmptyString]
  | String c s' =>
      if Ascii.eqb c " "%char then EmptyString :: split s'
      else
        match split s' with
        | piece :: pieces => String c piece :: pieces
        | [] => [String c EmptyString]
        end
  end.

(** [classes.join(" ")]. *)
Fixpoint join (classes : list string) : string :=
  match classes with
  | [] => EmptyString
  | class :: rest =>
      match rest with
      | [] => class
      | _ :: _ => String.append class (String " " (join rest))
      end
  end.

(** [classes.indexOf(className)]; [None] is -1. *)
Fixpoint indexOf (className : string) (classes : list string) : option nat :=
  match classes with
  | [] => None
  | class :: rest =>
      if bool_decide (class = className) then Some 0%nat
      else S <$> indexOf className rest
  end.

(** [addClass(element, className)], as a function on [element.className]. *)
Definition addClass (element : string) (className : string) : string :=
  let classes := split element in
  let classes :=
    match indexOf className classes with
    | None => classes ++ [className]
    | Some _ => classes
    end in
  join classes.

(** [removeClass(element, className)], as a function on
    [element.className]. *)
Definition removeClass (element : string) (className : string) : string :=
  let classes := split element in
  let classes :=
    match indexOf className classes with
    | Some index => delete index classes
    | None => classes
    end in
  join classes.

(** A string without a space. *)
Fixpoint spaceless (s : string) : Prop :=
  match s with
  | EmptyString => True
  | String c s' => c <> " "%char /\ spaceless s'
  end.

End ClassNames.

(** * Part II: properties *)

(** ** Numbers *)

Lemma Qltb_lt (x y : Q) : Qltb x y = true <-> (x < y)%Q.
Proof.
  unfold Qltb. rewrite negb_true_iff. split; intros H.
  - apply Qnot_le_lt. intros Hle. apply Qle_bool_iff in Hle. congruence.
  - destruct (Qle_bool y x) eqn:E; [|reflexivity].
    apply Qle_bool_iff in E. lra.
Qed.

Lemma Qltb_ge (x y : Q) : Qltb x y = false <-> (y <= x)%Q.
Proof. unfold Qltb. rewrite negb_false_iff. apply Qle_bool_iff. Qed.

(** ** Colour conversion *)

Module ColourConverterProps.
Import ColourConverter.
Local Open Scope Q_scope.

Example hsvToRgb_orange : hsvToRgb 30 100 100 = (255, 128, 0)%Z.
Proof. reflexivity. Qed.

Example hsvToRgb_grey : hsvToRgb 200 0 50 = (128, 128, 128)%Z.
Proof. reflexivity. Qed.

(** At 360 degrees the sector is 6 and takes the default case. *)
Example hsvToRgb_360 : hsvToRgb 360 100 100 = (255, 0, 255)%Z.
Proof. reflexivity. Qed.

(** An argument after [Math.max(0, Math.min(hi, x))]. *)
Lemma clamp_range (hi x : Q) :
  0 <= hi -> 0 <= Qmax 0 (Qmin hi x) <= hi.
Proof.
  intros Hhi. split.
  - apply Q.le_max_l.
  - apply Q.max_lub; [assumption | apply Q.le_min_l].
Qed.

Lemma unit_percent (x : Q) : unit (Qmax 0 (Qmin 100 x) / 100).
Proof.
  destruct (clamp_range 100 x) as [H0 H1]; [lra|].
  unfold unit. split.
  - apply Qle_shift_div_l; lra.
  - apply Qle_shift_div_r; lra.
Qed.

Lemma unit_mul (a b : Q) : unit a -> unit b -> unit (a * b).
Proof. unfold unit. intros [Ha0 Ha1] [Hb0 Hb1]. split; nra. Qed.

Lemma unit_compl (a : Q) : unit a -> unit (1 - a).
Proof. unfold unit. intros [H0 H1]. split; lra. Qed.

Lemma unit_fraction (x : Q) : unit (x - inject_Z (Math_floor x)).
Proof.
  unfold unit, Math_floor.
  pose proof (Qfloor_le x) as Hlo. pose proof (Qlt_floor x) as Hhi.
  rewrite inject_Z_plus in Hhi. change (inject_Z 1) with 1 in Hhi.
  split; lra.
Qed.

Lemma round_unit (c : Q) : unit c -> channel (Math_round (c * 255)).
Proof.
  intros [H0 H1]. unfold channel, Math_round.
  assert (Hlo : (Qfloor (0 + (1 # 2)) <= Qfloor (c * 255 + (1 # 2)))%Z)
    by (apply Qfloor_resp_le; lra).
  assert (Hhi : (Qfloor (c * 255 + (1 # 2)) <= Qfloor (255 + (1 # 2)))%Z)
    by (apply Qfloor_resp_le; lra).
  split; assumption.
Qed.

(** Whatever the sector, the three channels are among [v], [p], [q] and
    [t]. *)
Lemma sector_unit (i : Z) (v p q t : Q) :
  unit v -> unit p -> unit q -> unit t ->
  let '(r, g, b) :=
    match i with
    | 0%Z => (v, t, p)
    | 1%Z => (q, v, p)
    | 2%Z => (p, v, t)
    | 3%Z => (p, q, v)
    | 4%Z => (t, p, v)
    | _ => (v, p, q)
    end in
  unit r /\ unit g /\ unit b.
Proof.
  intros Hv Hp Hq Ht.
  repeat match goal with
         | |- context [match ?z with _ => _ end] =>
             is_var z; destruct z; cbv iota
         end; auto.
Qed.

Lemma hsvToRgb_range (h s v : Q) :
  let '(r, g, b) := hsvToRgb h s v in channel r /\ channel g /\ channel b.
Proof.
  unfold hsvToRgb.
  pose proof (unit_percent s) as Hs. pose proof (unit_percent v) as Hv.
  set (s' := Qmax 0 (Qmin 100 s) / 100) in *.
  set (v' := Qmax 0 (Qmin 100 v) / 100) in *.
  set (h' := Qmax 0 (Qmin 360 h) / 60).
  destruct (Qeq_bool s' 0).
  - auto using round_unit.
  - pose proof (unit_fraction h') as Hf.
    set (f := h' - inject_Z (Math_floor h')) in *.
    pose proof (sector_unit (Math_floor h') v'
      (v' * (1 - s')) (v' * (1 - s' * f)) (v' * (1 - s' * (1 - f)))) as H.
    destruct (match Math_floor h' with
              | 0%Z => _ | 1%Z => _ | 2%Z => _ | 3%Z => _ | 4%Z => _
              | _ => _ end) as [[r g] b].
    destruct H as (Hr & Hg & Hb);
      auto 6 using round_unit, unit_mul, unit_compl.
Qed.

(** C5: for every input, in range or not, each of the three channels that
    [hsvToRgb] returns is an integer from 0 to 255; the hues 0, 120 and 240
    at full saturation and value give pure red, green and blue. *)
Theorem hsvToRgb_channels (h s v : Q) :
  (let '(r, g, b) := hsvToRgb h s v in
   channel r /\ channel g /\ channel b) /\
  hsvToRgb 0 100 100 = (255, 0, 0)%Z /\
  hsvToRgb 120 100 100 = (0, 255, 0)%Z /\
  hsvToRgb 240 100 100 = (0, 0, 255)%Z.
Proof.
  split; [apply hsvToRgb_range|].
  repeat split; reflexivity.
Qed.

(** C6: when the saturation is 0 after clamping, [hsvToRgb] returns the
    value, clamped and scaled to the range from 0 to 1, times 255 and
    rounded, in each of the three channels, whatever the hue. *)
Theorem hsvToRgb_achromatic (h s v : Q) :
  Qmax 0 (Qmin 100 s) == 0 ->
  let v' := Qmax 0 (Qmin 100 v) / 100 in
  hsvToRgb h s v =
    (Math_round (v' * 255), Math_round (v' * 255), Math_round (v' * 255)).
Proof.
  intros Hs v'. unfold hsvToRgb.
  assert (E : Qeq_bool (Qmax 0 (Qmin 100 s) / 100) 0 = true).
  { apply Qeq_bool_iff. rewrite Hs. reflexivity. }
  rewrite E. reflexivity.
Qed.

Lemma hsvToRgb_achromatic_witness :
  Qmax 0 (Qmin 100 (-5)) == 0 /\
  hsvToRgb 200 (-5) 50 = (128, 128, 128)%Z.
Proof.
  split; [reflexivity|].
  apply (hsvToRgb_achromatic 200 (-5) 50). reflexivity.
Defined.

(** *** Further properties of the conversion *)

Lemma Math_round_comp (x y : Q) : x == y -> Math_round x = Math_round y.
Proof. intros H. unfold Math_round. apply Qfloor_comp. rewrite H. reflexivity. Qed.

Lemma Math_round_le (x y : Q) : x <= y -> (Math_round x <= Math_round y)%Z.
Proof. intros H. unfold Math_round. apply Qfloor_resp_le. lra. Qed.

(** The three channels selected by the sector [i], before rounding. *)
Lemma sector_comp (i : Z) (v p q t v' p' q' t' : Q) :
  v == v' -> p == p' -> q == q' -> t == t' ->
  (let '(r, g, b) :=
     match i with
     | 0%Z => (v, t, p)
     | 1%Z => (q, v, p)
     | 2%Z => (p, v, t)
     | 3%Z => (p, q, v)
     | 4%Z => (t, p, v)
     | _ => (v, p, q)
     end in
   (Math_round (r * 255), Math_round (g * 255), Math_round (b * 255))) =
  (let '(r, g, b) :=
     match i with
     | 0%Z => (v', t', p')
     | 1%Z => (q', v', p')
     | 2%Z => (p', v', t')
     | 3%Z => (p', q', v')
     | 4%Z => (t', p', v')
     | _ => (v', p', q')
     end in
   (Math_round (r * 255), Math_round (g * 255), Math_round (b * 255))).
Proof.
  intros Hv Hp Hq Ht.
  assert (Ev : Math_round (v * 255) = Math_round (v' * 255))
    by (apply Math_round_comp; rewrite Hv; reflexivity).
  assert (Ep : Math_round (p * 255) = Math_round (p' * 255))
    by (apply Math_round_comp; rewrite Hp; reflexivity).
  assert (Eq' : Math_round (q * 255) = Math_round (q' * 255))
    by (apply Math_round_comp; rewrite Hq; reflexivity).
  assert (Et : Math_round (t * 255) = Math_round (t' * 255))
    by (apply Math_round_comp; rewrite Ht; reflexivity).
  repeat match goal with
         | |- context [match ?z with _ => _ end] =>
             is_var z; destruct z; cbv iota
         end;
    rewrite ?Ev, ?Ep, ?Eq', ?Et; reflexivity.
Qed.

(** The result depends on the arguments through their clamped values
    only, and on these as numbers, not as fractions. *)
Lemma hsvToRgb_ext (h s v h' s' v' : Q) :
  Qmax 0 (Qmin 360 h) == Qmax 0 (Qmin 360 h') ->
  Qmax 0 (Qmin 100 s) == Qmax 0 (Qmin 100 s') ->
  Qmax 0 (Qmin 100 v) == Qmax 0 (Qmin 100 v') ->
  hsvToRgb h s v = hsvToRgb h' s' v'.
Proof.
  intros Hh Hs Hv. unfold hsvToRgb.
  assert (Eh : Qmax 0 (Qmin 360 h) / 60 == Qmax 0 (Qmin 360 h') / 60)
    by (rewrite Hh; reflexivity).
  assert (Es : Qmax 0 (Qmin 100 s) / 100 == Qmax 0 (Qmin 100 s') / 100)
    by (rewrite Hs; reflexivity).
  assert (Ev : Qmax 0 (Qmin 100 v) / 100 == Qmax 0 (Qmin 100 v') / 100)
    by (rewrite Hv; reflexivity).
  set (a := Qmax 0 (Qmin 360 h) / 60) in *.
  set (a' := Qmax 0 (Qmin 360 h') / 60) in *.
  set (b := Qmax 0 (Qmin 100 s) / 100) in *.
  set (b' := Qmax 0 (Qmin 100 s') / 100) in *.
  set (c := Qmax 0 (Qmin 100 v) / 100) in *.
  set (c' := Qmax 0 (Qmin 100 v') / 100) in *.
  assert (Eb : Qeq_bool b 0 = Qeq_bool b' 0) by (rewrite Es; reflexivity).
  rewrite <- Eb. destruct (Qeq_bool b 0).
  - rewrite (Math_round_comp (c * 255) (c' * 255)) by (rewrite Ev; reflexivity).
    reflexivity.
  - assert (Ei : Math_floor a = Math_floor a') by (apply Qfloor_comp, Eh).
    rewrite <- Ei. set (i := Math_floor a).
    apply sector_comp.
    + exact Ev.
    + rewrite Ev, Es. reflexivity.
    + rewrite Ev, Es, Eh. reflexivity.
    + rewrite Ev, Es, Eh. reflexivity.
Qed.

Lemma hsvToRgb_comp (h s v h' s' v' : Q) :
  h == h' -> s == s' -> v == v' -> hsvToRgb h s v = hsvToRgb h' s' v'.
Proof.
  intros Hh Hs Hv. apply hsvToRgb_ext.
  - rewrite Hh. reflexivity.
  - rewrite Hs. reflexivity.
  - rewrite Hv. reflexivity.
Qed.

Lemma clamp_clamp (hi x : Q) :
  0 <= hi ->
  Qmax 0 (Qmin hi (Qmax 0 (Qmin hi x))) == Qmax 0 (Qmin hi x).
Proof.
  intros Hhi. destruct (clamp_range hi x Hhi) as [H0 H1].
  rewrite (Q.min_r hi _ H1). apply Q.max_r, H0.
Qed.

(** X1: Arguments out of range count as the nearest bound: the result is the
    one of the clamped arguments.  In particular a negative hue is the hue
    0, not a hue counted backwards from 360. *)
Theorem hsvToRgb_clamped (h s v : Q) :
  hsvToRgb h s v =
    hsvToRgb (Qmax 0 (Qmin 360 h)) (Qmax 0 (Qmin 100 s))
             (Qmax 0 (Qmin 100 v)).
Proof.
  apply hsvToRgb_ext; symmetry; apply clamp_clamp; lra.
Qed.

(** In every sector one channel is [v], one is [p], and the third is
    between them. *)
Lemma sector_order (i : Z) (v p q t : Q) :
  p <= q <= v -> p <= t <= v ->
  let '(r, g, b) :=
    match i with
    | 0%Z => (v, t, p)
    | 1%Z => (q, v, p)
    | 2%Z => (p, v, t)
    | 3%Z => (p, q, v)
    | 4%Z => (t, p, v)
    | _ => (v, p, q)
    end in
  Z.max (Math_round (r * 255))
        (Z.max (Math_round (g * 255)) (Math_round (b * 255)))
    = Math_round (v * 255) /\
  Z.min (Math_round (r * 255))
        (Z.min (Math_round (g * 255)) (Math_round (b * 255)))
    = Math_round (p * 255).
Proof.
  intros [Hpq Hqv] [Hpt Htv].
  assert (Rpq : (Math_round (p * 255) <= Math_round (q * 255))%Z)
    by (apply Math_round_le; lra).
  assert (Rqv : (Math_round (q * 255) <= Math_round (v * 255))%Z)
    by (apply Math_round_le; lra).
  assert (Rpt : (Math_round (p * 255) <= Math_round (t * 255))%Z)
    by (apply Math_round_le; lra).
  assert (Rtv : (Math_round (t * 255) <= Math_round (v * 255))%Z)
    by (apply Math_round_le; lra).
  repeat match goal with
         | |- context [match ?z with _ => _ end] =>
             is_var z; destruct z; cbv iota
         end; lia.
Qed.

(** X2: The largest of the three channels is the value, and the smallest is
    the value times one minus the saturation, both scaled to 255 and
    rounded: the hue only decides which channel is which. *)
Theorem hsvToRgb_extremes (h s v : Q) :
  let s' := Qmax 0 (Qmin 100 s) / 100 in
  let v' := Qmax 0 (Qmin 100 v) / 100 in
  let '(r, g, b) := hsvToRgb h s v in
  Z.max r (Z.max g b) = Math_round (v' * 255) /\
  Z.min r (Z.min g b) = Math_round (v' * (1 - s') * 255).
Proof.
  intros s' v'. unfold hsvToRgb. fold s' v'.
  pose proof (unit_percent s) as Hs. pose proof (unit_percent v) as Hv.
  fold s' in Hs. fold v' in Hv. unfold unit in *.
  set (h' := Qmax 0 (Qmin 360 h) / 60).
  destruct (Qeq_bool s' 0) eqn:E.
  - apply Qeq_bool_iff in E.
    rewrite (Math_round_comp (v' * (1 - s') * 255) (v' * 255))
      by (rewrite E; ring).
    lia.
  - pose proof (unit_fraction h') as Hf. unfold unit in Hf.
    set (f := h' - inject_Z (Math_floor h')) in *.
    assert (Hu : 0 <= s' * f <= s') by (split; nra).
    assert (Hw : 0 <= s' * (1 - f) <= s') by (split; nra).
    set (u := s' * f) in *. set (w := s' * (1 - f)) in *.
    pose proof (sector_order (Math_floor h') v'
      (v' * (1 - s')) (v' * (1 - u)) (v' * (1 - w))) as H.
    destruct (match Math_floor h' with
              | 0%Z => _ | 1%Z => _ | 2%Z => _ | 3%Z => _ | 4%Z => _
              | _ => _ end) as [[r g] b].
    apply H; split; nra.
Qed.



(** *** The colour object *)

Example Colour_update_400 : hue (Colour_update 400 50 50) == 40.
Proof. reflexivity. Qed.

Example Colour_update_negative : hue (Colour_update (-30) 50 50) == -30.
Proof. reflexivity. Qed.

Lemma Qfloor_unique (x : Q) (z : Z) :
  inject_Z z <= x -> x < inject_Z z + 1 -> Qfloor x = z.
Proof.
  intros Hlo Hhi.
  assert (H1 : (z <= Qfloor x)%Z).
  { rewrite <- (Qfloor_Z z). apply Qfloor_resp_le, Hlo. }
  assert (H2 : (Qfloor x < z + 1)%Z).
  { rewrite Zlt_Qlt. rewrite inject_Z_plus. change (inject_Z 1) with 1.
    pose proof (Qfloor_le x). lra. }
  lia.
Qed.

(** For a number that is not negative, counting towards zero is
    [Math.floor]. *)
Lemma Number_rem_floor (a n : Q) :
  0 <= a -> 0 < n ->
  Number_rem a n = a - n * inject_Z (Qfloor (a / n)).
Proof.
  intros Ha Hn. unfold Number_rem.
  assert (Hq : 0 <= a / n) by (apply Qle_shift_div_l; lra).
  destruct (a / n) as [num den] eqn:E. cbn [Qnum Qden Qfloor].
  rewrite Z.quot_div_nonneg; [reflexivity | | lia].
  unfold Qle in Hq. cbn in Hq. lia.
Qed.

Lemma Number_rem_range (a n : Q) :
  0 <= a -> 0 < n ->
  0 <= Number_rem a n /\ Number_rem a n < n.
Proof.
  intros Ha Hn. rewrite (Number_rem_floor a n Ha Hn).
  pose proof (Qfloor_le (a / n)) as Hlo.
  pose proof (Qlt_floor (a / n)) as Hhi.
  rewrite inject_Z_plus in Hhi. change (inject_Z 1) with 1 in Hhi.
  assert (Ea : a == n * (a / n)) by (field; lra).
  set (q := a / n) in *. set (k := inject_Z (Qfloor q)) in *.
  split; nra.
Qed.

Lemma Number_rem_shift (a n : Q) :
  0 <= a -> 0 < n -> Number_rem (a + n) n == Number_rem a n.
Proof.
  intros Ha Hn.
  rewrite (Number_rem_floor a n Ha Hn).
  rewrite (Number_rem_floor (a + n) n) by lra.
  assert (E : Qfloor ((a + n) / n) = (Qfloor (a / n) + 1)%Z).
  { apply Qfloor_unique.
    - rewrite inject_Z_plus. change (inject_Z 1) with 1.
      pose proof (Qfloor_le (a / n)).
      assert (Es : (a + n) / n == a / n + 1) by (field; lra).
      rewrite Es. lra.
    - rewrite inject_Z_plus. change (inject_Z 1) with 1.
      pose proof (Qlt_floor (a / n)) as Hhi.
      rewrite inject_Z_plus in Hhi. change (inject_Z 1) with 1 in Hhi.
      assert (Es : (a + n) / n == a / n + 1) by (field; lra).
      rewrite Es. lra. }
  rewrite E, inject_Z_plus. change (inject_Z 1) with 1. ring.
Qed.

(** X4: The hue that [Colour.update] stores for a hue that is not negative is
    at least 0 and less than 360, and differs from the argument by a whole
    number of turns; a hue below 360 is stored as it is. *)
Theorem Colour_update_hue (h s v : Q) :
  0 <= h ->
  (0 <= hue (Colour_update h s v) /\ hue (Colour_update h s v) < 360) /\
  (exists k : Z, (0 <= k)%Z /\
     h == hue (Colour_update h s v) + 360 * inject_Z k) /\
  (h < 360 -> hue (Colour_update h s v) == h).
Proof.
  intros Hh. cbn [Colour_update hue].
  assert (H360 : 0 < 360) by reflexivity.
  destruct (Number_rem_range h 360 Hh H360) as [H0 H1].
  split; [split; assumption|].
  rewrite (Number_rem_floor h 360) in * by lra.
  assert (Hk : (0 <= Qfloor (h / 360))%Z).
  { change (Qfloor 0 <= Qfloor (h / 360))%Z. apply Qfloor_resp_le.
    apply Qle_shift_div_l; lra. }
  split.
  - exists (Qfloor (h / 360)). split; [exact Hk | ring].
  - intros Hlt.
    assert (E : Qfloor (h / 360) = 0%Z).
    { apply Qfloor_unique; change (inject_Z 0) with 0.
      - apply Qle_shift_div_l; lra.
      - apply Qlt_shift_div_r; lra. }
    rewrite E. change (inject_Z 0) with 0. ring.
Qed.

Lemma Colour_update_hue_witness :
  0 <= hue (Colour_update 400 50 50) /\ hue (Colour_update 400 50 50) < 360.
Proof.
  apply (Colour_update_hue 400 50 50). vm_compute. discriminate.
Defined.

(** X5: For the colour object the hue goes round: a whole turn more gives the
    same colour.  So the hue 360 is the hue 0 here, a red, although
    [hsvToRgb] itself makes a magenta of 360. *)
Theorem Colour_update_turn (h s v : Q) :
  0 <= h ->
  hue (Colour_update (h + 360) s v) == hue (Colour_update h s v) /\
  rgb (Colour_update (h + 360) s v) = rgb (Colour_update h s v).
Proof.
  intros Hh. cbn [Colour_update hue rgb].
  pose proof (Number_rem_shift h 360 Hh) as E.
  split; [apply E; lra|].
  apply hsvToRgb_comp; [apply E; lra | reflexivity | reflexivity].
Qed.

Lemma Colour_update_turn_witness :
  rgb (Colour_update (0 + 360) 100 100) = rgb (Colour_update 0 100 100) /\
  rgb (Colour_update 0 100 100) = (255, 0, 0)%Z /\
  hsvToRgb 360 100 100 = (255, 0, 255)%Z.
Proof.
  split; [|split; reflexivity].
  apply (Colour_update_turn 0 100 100). vm_compute. discriminate.
Defined.

End ColourConverterProps.

(** ** Oscillators *)

Module OscillatorProps.
Import Oscillator.
Local Open Scope Q_scope.

(** Case analysis on a comparison of [update]. *)
Ltac case_ltb :=
  match goal with
  | |- context [Qltb ?a ?b] =>
      let E := fresh "E" in
      destruct (Qltb a b) eqn:E;
      [apply Qltb_lt in E | apply Qltb_ge in E]; cbn
  end.

Example update_inside :
  value (update (new 0 360 30 true) 2) == 240 /\
  direction (update (new 0 360 30 true) 2) == 1.
Proof. split; reflexivity. Qed.

Example update_bounce :
  value (update (new 0 10 1 false) 7) == 8 /\
  direction (update (new 0 10 1 false) 7) == -1.
Proof. split; reflexivity. Qed.

Example update_wrap :
  value (update (new 0 10 1 true) 7) == 2 /\
  direction (update (new 0 10 1 true) 7) == 1.
Proof. split; reflexivity. Qed.

(** [update] leaves the arguments of the constructor as they are. *)
Lemma update_params (o : LFO) (dt : Q) :
  minValue (update o dt) = minValue o /\
  maxValue (update o dt) = maxValue o /\
  speed (update o dt) = speed o /\
  loopRound (update o dt) = loopRound o.
Proof.
  unfold update.
  destruct (if Qltb (maxValue o) _ then _ else _) as [v d].
  destruct (if Qltb v (minValue o) then _ else _) as [v' d'].
  repeat split.
Qed.

Lemma new_steady (lo hi spd : Q) (loop : bool) :
  lo <= hi -> steady (new lo hi spd loop).
Proof.
  intros H. unfold steady, in_range. cbn.
  assert (Hmid : (lo + hi) / 2 == (lo + hi) * (1 # 2)) by reflexivity.
  rewrite Hmid.
  repeat split; lra.
Qed.

Lemma update_steady (o : LFO) (dt : Q) :
  steady o -> short_step o dt -> steady (update o dt).
Proof.
  unfold steady, short_step, in_range.
  intros (Hb & [Hlo Hhi] & Hd) Hstep.
  apply Qabs_Qle_condition in Hstep. destruct Hstep as [Hs1 Hs2].
  set (c := speed o * dt) in *.
  assert (Hc : c * direction o == c \/ c * direction o == - c).
  { destruct Hd as [Hd | Hd]; rewrite Hd; [left | right]; ring. }
  unfold update. fold c.
  destruct (loopRound o);
    repeat case_ltb; repeat split;
    destruct Hd as [Hd | Hd]; destruct Hc as [Hc | Hc];
    try (left; lra); try (right; lra); lra.
Qed.

Lemma callbacks_steady (o : LFO) (dts : list Q) :
  steady o ->
  Forall (short_step o) dts ->
  Forall (in_range o) (callbacks o dts).
Proof.
  revert o. induction dts as [|dt dts IH]; intros o Ho Hdts; cbn.
  - constructor.
  - inversion Hdts as [|? ? Hdt Hdts']; subst.
    pose proof (update_steady o dt Ho Hdt) as Ho'.
    destruct (update_params o dt) as (Emin & Emax & Espd & _).
    constructor.
    + destruct Ho' as (_ & Hr & _). unfold in_range in *.
      rewrite Emin, Emax in Hr. exact Hr.
    + assert (IH' : Forall (in_range (update o dt))
                      (callbacks (update o dt) dts)).
      { apply IH; [exact Ho'|].
        eapply Forall_impl; [exact Hdts'|].
        intros d Hd. unfold short_step in *.
        rewrite Emin, Emax, Espd. exact Hd. }
      eapply Forall_impl; [exact IH'|].
      intros v Hv. unfold in_range in *. rewrite Emin, Emax in Hv. exact Hv.
Qed.

(** C1, as the code has it: from the state that the constructor builds,
    with bounds in order, the value handed to the callback is between the
    bounds after every call of [update] of a sequence, in both modes,
    provided that the change [speed * dt] of each call is at most the
    distance between the bounds, in absolute value. *)
Theorem callbacks_in_range (lo hi spd : Q) (loop : bool) (dts : list Q) :
  lo <= hi ->
  Forall (fun dt => Qabs (spd * dt) <= hi - lo) dts ->
  Forall (fun v => lo <= v /\ v <= hi) (callbacks (new lo hi spd loop) dts).
Proof.
  intros Hb Hdts.
  apply (callbacks_steady (new lo hi spd loop) dts).
  - apply new_steady, Hb.
  - exact Hdts.
Qed.

Lemma callbacks_in_range_witness :
  Forall (fun v => 0 <= v /\ v <= 360)
    (callbacks (new 0 360 30 true) [5; 5; 5]).
Proof.
  apply (callbacks_in_range 0 360 30 true [5; 5; 5]).
  - vm_compute. discriminate.
  - repeat constructor; vm_compute; discriminate.
Defined.

(** C1, as it is stated, fails: between the bounds 0 and 1, from the value
    1/2, a call whose change is 10 leaves the value 17/2 in bounce mode and
    19/2 in wrap mode.  So does the oscillator of the hue, between 0 and 360
    at 30 per second, after a frame of 20 seconds: its value is 420. *)
Lemma long_step_out_of_range :
  (0 < 1 /\ 0 <= 1) /\
  value (update (new 0 1 10 false) 1) == 17 # 2 /\
  value (update (new 0 1 10 true) 1) == 19 # 2 /\
  value (update (new 0 360 30 true) 20) == 420 /\
  ~ Forall (fun v => 0 <= v /\ v <= 1) (callbacks (new 0 1 10 false) [1]) /\
  ~ Forall (fun v => 0 <= v /\ v <= 1) (callbacks (new 0 1 10 true) [1]).
Proof.
  split; [split; [reflexivity | discriminate]|].
  split; [reflexivity|]. split; [reflexivity|]. split; [reflexivity|].
  split; intros H; inversion H as [|? ? [_ Hhi] _]; subst;
    vm_compute in Hhi; apply Hhi; reflexivity.
Qed.

Lemma update_forward (o : LFO) (dt : Q) :
  forward o -> 0 <= speed o * dt -> forward (update o dt).
Proof.
  unfold forward. intros (Hloop & Hd & Hb & Hv) Hstep.
  unfold update. rewrite Hloop, Hd.
  repeat case_ltb; repeat split; auto; lra.
Qed.

Lemma run_forward (dts : list Q) (o : LFO) :
  forward o ->
  Forall (fun dt => 0 <= speed o * dt) dts ->
  forward (run o dts).
Proof.
  revert o. induction dts as [|dt dts IH]; intros o Ho Hdts; cbn.
  - exact Ho.
  - inversion Hdts as [|? ? Hdt Hdts']; subst.
    apply IH.
    + apply update_forward; assumption.
    + destruct (update_params o dt) as (_ & _ & Espd & _).
      rewrite Espd. exact Hdts'.
Qed.

(** The wrap at the upper bound: in wrap mode, a call of [update] that
    takes the value above the upper bound by [delta] leaves the value at
    the lower bound plus [delta] and the direction as it was; the
    direction is +1 when the oscillator has been updated, since its
    construction with bounds in order, by changes that are not negative.
    Nothing is said here of a negative speed. *)
Theorem wrap_crossing_max (o : LFO) (dt delta : Q) :
  loopRound o = true ->
  0 < delta ->
  value o + speed o * dt * direction o == maxValue o + delta ->
  value (update o dt) == minValue o + delta /\
  direction (update o dt) = direction o /\
  (forall (lo hi spd : Q) (dts : list Q),
     lo <= hi ->
     Forall (fun dt => 0 <= spd * dt) dts ->
     o = run (new lo hi spd true) dts ->
     direction (update o dt) = 1).
Proof.
  intros Hloop Hdelta Hpre.
  assert (H : value (update o dt) == minValue o + delta /\
              direction (update o dt) = direction o).
  { unfold update. rewrite Hloop.
    repeat case_ltb; repeat split; lra. }
  destruct H as [Hv Hd]. repeat split; [exact Hv | exact Hd |].
  intros lo hi spd dts Hb Hdts ->. rewrite Hd.
  apply (run_forward dts (new lo hi spd true)).
  - unfold forward. cbn. repeat split; [exact Hb|].
    assert (Hmid : (lo + hi) / 2 == (lo + hi) * (1 # 2)) by reflexivity.
    rewrite Hmid. lra.
  - exact Hdts.
Qed.

Lemma wrap_crossing_max_witness :
  value (update (run (new 0 360 30 true) [5]) 2) == 0 + 30 /\
  direction (update (run (new 0 360 30 true) [5]) 2) = 1.
Proof.
  destruct (wrap_crossing_max (run (new 0 360 30 true) [5]) 2 30)
    as (Hv & _ & Hd).
  - reflexivity.
  - reflexivity.
  - reflexivity.
  - split; [exact Hv|].
    apply (Hd 0 360 30 [5]).
    + vm_compute. discriminate.
    + repeat constructor; vm_compute; discriminate.
    + reflexivity.
Defined.

(** C3: the comment in [LFO.update] says that the direction is always 1
    in wrap mode, and the code does not keep it so.  The hue oscillator
    is [new LFO(0, 360, settings.hueChangePerSecond, ..., true)]; with a
    speed of -30 a first [update(7)] takes the value from 180 to -30, below
    the lower bound, where the branch for the lower bound, the same in
    both modes, reverses the direction and leaves the value at 30.  A
    second [update(12)] then takes the value to 390, above the upper bound
    by 30: the value wraps to the lower bound plus 30, and the direction
    stays what it was, which is -1 and not +1. *)
Lemma wrap_direction_negative_rate :
  let o := update (new 0 360 (-30) true) 7 in
  loopRound o = true /\
  value o == 30 /\
  direction o == -1 /\
  value o + speed o * 12 * direction o == maxValue o + 30 /\
  value (update o 12) == minValue o + 30 /\
  direction (update o 12) == direction o /\
  ~ direction (update o 12) == 1.
Proof.
  cbv zeta.
  split; [reflexivity|].
  split; [vm_compute; reflexivity|].
  split; [vm_compute; reflexivity|].
  split; [vm_compute; reflexivity|].
  split; [vm_compute; reflexivity|].
  split; [vm_compute; reflexivity|].
  vm_compute. discriminate.
Qed.

(** C4, as the code has it: with bounds in order, a call of [update] in
    bounce mode that takes the value above the upper bound by [delta], at
    most the distance between the bounds, leaves the value at the upper
    bound minus [delta] and the direction reversed; a call, in either mode,
    that takes the value below the lower bound by [delta] leaves the value
    at the lower bound plus [delta] and the direction reversed. *)
Theorem bounce_reflection (o : LFO) (dt delta : Q) :
  minValue o <= maxValue o ->
  0 < delta ->
  (loopRound o = false ->
   delta <= maxValue o - minValue o ->
   value o + speed o * dt * direction o == maxValue o + delta ->
   value (update o dt) == maxValue o - delta /\
   direction (update o dt) == - direction o) /\
  (value o + speed o * dt * direction o == minValue o - delta ->
   value (update o dt) == minValue o + delta /\
   direction (update o dt) == - direction o).
Proof.
  intros Hb Hdelta. split.
  - intros Hloop Hshort Hpre. unfold update. rewrite Hloop.
    repeat case_ltb; repeat split; lra.
  - intros Hpre. unfold update.
    destruct (loopRound o); repeat case_ltb; repeat split; lra.
Qed.

Lemma bounce_reflection_witness :
  (value (update (new 0 10 1 false) 7) == 10 - 2 /\
   direction (update (new 0 10 1 false) 7) == - (1)) /\
  (value (update (update (new 0 10 1 false) 7) 10) == 0 + 2 /\
   direction (update (update (new 0 10 1 false) 7) 10) == - (-1)).
Proof.
  split.
  - apply (bounce_reflection (new 0 10 1 false) 7 2).
    + vm_compute. discriminate.
    + reflexivity.
    + reflexivity.
    + vm_compute. discriminate.
    + reflexivity.
  - apply (bounce_reflection (update (new 0 10 1 false) 7) 10 2).
    + vm_compute. discriminate.
    + reflexivity.
    + reflexivity.
Defined.

(** C4, as it is stated, fails: in bounce mode between the bounds 0 and 1,
    a call that takes the value from 1/2 to 21/2, above the upper bound by
    19/2, leaves the value 17/2, not 1 - 19/2, and the direction +1 as it
    was, not reversed. *)
Lemma bounce_twice :
  loopRound (new 0 1 10 false) = false /\
  value (new 0 1 10 false)
    + speed (new 0 1 10 false) * 1 * direction (new 0 1 10 false)
    == maxValue (new 0 1 10 false) + (19 # 2) /\
  value (update (new 0 1 10 false) 1) == 17 # 2 /\
  direction (update (new 0 1 10 false) 1) == 1 /\
  ~ (value (update (new 0 1 10 false) 1)
       == maxValue (new 0 1 10 false) - (19 # 2)) /\
  ~ (direction (update (new 0 1 10 false) 1)
       == - direction (new 0 1 10 false)).
Proof.
  repeat split; try reflexivity; intros H; vm_compute in H; discriminate H.
Qed.

(** *** Further properties of the oscillator *)

Lemma run_params (dts : list Q) (o : LFO) :
  minValue (run o dts) = minValue o /\
  maxValue (run o dts) = maxValue o /\
  speed (run o dts) = speed o /\
  loopRound (run o dts) = loopRound o.
Proof.
  revert o. induction dts as [|dt dts IH]; intros o; cbn.
  - repeat split.
  - destruct (IH (update o dt)) as (E1 & E2 & E3 & E4).
    destruct (update_params o dt) as (F1 & F2 & F3 & F4).
    unfold run in *. rewrite E1, E2, E3, E4. auto.
Qed.

Lemma update_direction (o : LFO) (dt : Q) :
  direction (update o dt) == direction o \/
  direction (update o dt) == - direction o.
Proof.
  unfold update.
  destruct (loopRound o); repeat case_ltb; (left; lra) || (right; lra).
Qed.

(** X6: Whatever the bounds, the speed, the mode and the calls, however long
    their steps, the direction of an oscillator is +1 or -1. *)
Theorem direction_unit (lo hi spd : Q) (loop : bool) (dts : list Q) :
  direction (run (new lo hi spd loop) dts) == 1 \/
  direction (run (new lo hi spd loop) dts) == -1.
Proof.
  assert (H : forall o : LFO,
             direction o == 1 \/ direction o == -1 ->
             direction (run o dts) == 1 \/ direction (run o dts) == -1).
  { induction dts as [|dt dts IH]; intros o Ho; cbn; [exact Ho|].
    apply IH.
    destruct (update_direction o dt) as [E | E]; destruct Ho as [Ho | Ho];
      rewrite E, Ho; (left; reflexivity) || (right; reflexivity). }
  apply H. left. reflexivity.
Qed.

(** X7: A call of [update] that keeps the value between the bounds adds the
    change, in the direction of the oscillator, and keeps the direction. *)
Theorem update_within (o : LFO) (dt : Q) :
  in_range o (value o + speed o * dt * direction o) ->
  value (update o dt) == value o + speed o * dt * direction o /\
  direction (update o dt) = direction o.
Proof.
  unfold in_range. intros [Hlo Hhi]. unfold update.
  repeat case_ltb; try lra; split; reflexivity.
Qed.

Lemma update_within_witness :
  value (update (new 0 360 30 true) 2) == (0 + 360) / 2 + 30 * 2 * 1 /\
  direction (update (new 0 360 30 true) 2) = 1.
Proof.
  apply (update_within (new 0 360 30 true) 2).
  split; vm_compute; discriminate.
Defined.

Lemma update_wraps (o : LFO) (dt : Q) :
  forward o -> 0 <= speed o * dt ->
  value (update o dt) == value o + speed o * dt \/
  value (update o dt) == value o + speed o * dt - (maxValue o - minValue o).
Proof.
  unfold forward. intros (Hloop & Hd & Hb & Hv) Hstep.
  unfold update. rewrite Hloop, Hd.
  repeat case_ltb; (left; lra) || (right; lra) || (exfalso; lra).
Qed.

Lemma run_wraps (dts : list Q) (o : LFO) :
  forward o ->
  Forall (fun dt => 0 <= speed o * dt) dts ->
  exists k : nat,
    (k <= length dts)%nat /\
    value (run o dts) ==
      value o + total_change (speed o) dts
      - inject_Z (Z.of_nat k) * (maxValue o - minValue o).
Proof.
  revert o. induction dts as [|dt dts IH]; intros o Ho Hdts.
  - exists 0%nat. split; [lia|]. cbn. ring.
  - inversion Hdts as [|? ? Hdt Hdts']; subst.
    destruct (update_params o dt) as (Emin & Emax & Espd & _).
    destruct (IH (update o dt)) as (k & Hk & E).
    { apply update_forward; assumption. }
    { rewrite Espd. exact Hdts'. }
    rewrite Emin, Emax, Espd in E.
    cbn [run fold_left total_change fold_right length] in *.
    fold (total_change (speed o) dts) in *.
    destruct (update_wraps o dt Ho Hdt) as [Eu | Eu].
    + exists k. split; [lia|]. rewrite E, Eu. ring.
    + exists (S k). split; [lia|]. rewrite E, Eu.
      rewrite Nat2Z.inj_succ. unfold Z.succ. rewrite inject_Z_plus.
      change (inject_Z 1) with 1. ring.
Qed.

(** X8: In wrap mode, after calls whose changes are not negative, however
    long, the value is the value at the start plus the sum of the changes
    minus a whole number of times the distance between the bounds: one time
    for every call that went over the upper bound. *)
Theorem wrap_sawtooth (lo hi spd : Q) (dts : list Q) :
  lo <= hi ->
  Forall (fun dt => 0 <= spd * dt) dts ->
  exists k : nat,
    (k <= length dts)%nat /\
    value (run (new lo hi spd true) dts) ==
      (lo + hi) / 2 + total_change spd dts - inject_Z (Z.of_nat k) * (hi - lo).
Proof.
  intros Hb Hdts.
  apply (run_wraps dts (new lo hi spd true)); [|exact Hdts].
  unfold forward. cbn. repeat split; [exact Hb|].
  assert (Hmid : (lo + hi) / 2 == (lo + hi) * (1 # 2)) by reflexivity.
  rewrite Hmid. lra.
Qed.

Lemma wrap_sawtooth_witness :
  exists k : nat,
    (k <= 3)%nat /\
    value (run (new 0 360 30 true) [5; 5; 5]) ==
      (0 + 360) / 2 + total_change 30 [5; 5; 5]
      - inject_Z (Z.of_nat k) * (360 - 0).
Proof.
  apply (wrap_sawtooth 0 360 30 [5; 5; 5]).
  - vm_compute. discriminate.
  - repeat constructor; vm_compute; discriminate.
Defined.

End OscillatorProps.

(** ** Macros *)

Module MacroPlayerProps.
Import MacroPlayer.
Local Open Scope Q_scope.

Lemma due_length (elapsed : Q) (mvs : list Move) :
  (length (due elapsed mvs) <= length mvs)%nat.
Proof.
  unfold due. induction mvs as [|mv mvs IH]; cbn; [lia|].
  destruct (Qltb (time mv) elapsed); cbn; lia.
Qed.

Lemma perform_other (mv : Move) (m : Macro) :
  restarts mv = false -> perform mv m = m.
Proof.
  destruct mv as [t [] key | t c]; try reflexivity.
  unfold restarts, perform, handleKeypress. intros H.
  apply bool_decide_eq_false in H.
  rewrite bool_decide_eq_false_2; [reflexivity | exact H].
Qed.

Lemma loop_due (rest : list Move) (m : Macro) (acc : list Move) (i : nat) :
  startIndex m = Some i ->
  (i + length rest <= length (moves m))%nat ->
  Forall (fun mv => restarts mv = false) rest ->
  loop rest m acc =
    (after m i (length (due (position m) rest)),
     acc ++ due (position m) rest).
Proof.
  revert m acc i.
  induction rest as [|mv rest IH]; intros m acc i Hi Hlen Hrest; cbn.
  - rewrite app_nil_r. unfold after. rewrite Nat.add_0_r, <- Hi.
    rewrite bool_decide_eq_false_2 by lia. destruct m; reflexivity.
  - inversion Hrest as [|? ? Hmv Hrest']; subst. cbn in Hlen.
    destruct (Qltb (time mv) (position m)) eqn:E.
    + rewrite (perform_other mv m Hmv).
      rewrite (IH (advance m) (acc ++ [mv]) (S i));
        [| cbn; rewrite Hi; reflexivity | cbn; lia | exact Hrest'].
      pose proof (due_length (position m) rest) as Hn.
      unfold due in *. cbn.
      set (n := length (List.filter _ rest)) in *.
      rewrite <- app_assoc. f_equal.
      unfold after. cbn. rewrite Hi. cbn.
      rewrite (bool_decide_ext (Some (S i) = Some (length (moves m)))
                 (S i = length (moves m))) by (split; congruence).
      f_equal.
      * f_equal. lia.
      * repeat case_bool_decide; try reflexivity; exfalso; lia.
    + apply IH; [exact Hi | lia | exact Hrest'].
Qed.

(** A call of [update] on a macro that has been started: the moves from
    [startIndex] on that are due at the time elapsed before the call are
    performed, and then [dt] is added to the time elapsed. *)
Lemma update_due (m : Macro) (dt : Q) (i : nat) :
  startIndex m = Some i ->
  (i <= length (moves m))%nat ->
  Forall (fun mv => restarts mv = false) (drop i (moves m)) ->
  let performed := due (position m) (drop i (moves m)) in
  update m dt =
    ({| moves := moves m; position := position m + dt;
        startIndex := Some (i + length performed)%nat;
        started := started (after m i (length performed)) |},
     performed).
Proof.
  intros Hi Hlen Hrest performed. unfold update. rewrite Hi.
  rewrite (loop_due (drop i (moves m)) m [] i Hi); [| | exact Hrest].
  - reflexivity.
  - rewrite length_drop. lia.
Qed.

Lemma update_empty (m : Macro) (dt : Q) :
  moves m = [] ->
  (update m dt).2 = [] /\
  moves (update m dt).1 = [] /\
  started (update m dt).1 = started m.
Proof.
  intros Hm. unfold update.
  destruct (startIndex m) as [i|]; [rewrite Hm, drop_nil|]; cbn; auto.
Qed.

Lemma ticks_empty (dts : list Q) (m : Macro) :
  moves m = [] ->
  started m = true ->
  started (ticks m dts).1 = true /\
  Forall (fun tick => tick = ([], true)) (ticks m dts).2.
Proof.
  revert m. induction dts as [|dt dts IH]; intros m Hm Hs; cbn.
  - auto.
  - destruct (update_empty m dt Hm) as (Hp & Hm' & Hs').
    destruct (update m dt) as [m' performed]. cbn in *. subst performed.
    rewrite Hs in Hs'.
    destruct (IH m' Hm' Hs') as [IHs IHl].
    destruct (ticks m' dts) as [m'' log]. cbn in *.
    split; [exact IHs|]. constructor; [rewrite Hs'; reflexivity | exact IHl].
Qed.

(** C10: a macro built from an empty sequence of moves is running after
    [start], and whatever the calls of [update] that follow, each of them
    performs no move and leaves [started] true: the macro never stops. *)
Theorem empty_macro_never_stops (dts : list Q) :
  started (start (new [])) = true /\
  started (ticks (start (new [])) dts).1 = true /\
  Forall (fun tick => tick = ([], true)) (ticks (start (new [])) dts).2.
Proof.
  split; [reflexivity|].
  apply ticks_empty; reflexivity.
Qed.

(** One comparison of the loop of [update], decided from the times of the
    moves. *)
Ltac tick :=
  match goal with
  | |- context [Qltb ?a ?b] =>
      let E := fresh "E" in
      destruct (Qltb a b) eqn:E;
      [apply Qltb_lt in E | apply Qltb_ge in E];
      cbn [position advance start new] in E;
      try (exfalso; lra); clear E
  end;
  rewrite ?perform_other by assumption;
  cbn [ticks loop drop start new advance option_map
       moves position startIndex started fst snd app length].

Example ticks_three_moves :
  (ticks (start (new three_moves)) (replicate 6 (1 # 2))).2 =
    [([], true);
     ([ClickMove 0 (50, 50)], true);
     ([], true);
     ([KeyMove 1 keydown "pause"], true);
     ([], true);
     ([KeyMove 2 keyup "pause"], false)].
Proof. vm_compute. reflexivity. Qed.

(** A move whose time has come while the time of an earlier move has not
    is performed all the same: the loop goes on after a move that is not
    due. *)
Example update_out_of_order :
  (update (update (start (new [ClickMove 5 (0, 0); ClickMove 0 (1, 1)]))
             1).1 1).2 = [ClickMove 0 (1, 1)].
Proof. vm_compute. reflexivity. Qed.

(** A [keydown] of the key that starts the macro sets the time elapsed back
    to 0 in the middle of the call: the moves that follow come later. *)
Example ticks_restart :
  (ticks
     (start (new [KeyMove 0 keydown "startMacro"; ClickMove 1 (0, 0);
                  ClickMove 2 (0, 0)]))
     (replicate 7 (1 # 2))).2 =
    [([], true);
     ([KeyMove 0 keydown "startMacro"], true);
     ([], true);
     ([], true);
     ([ClickMove 1 (0, 0)], true);
     ([], true);
     ([ClickMove 2 (0, 0)], false)].
Proof. vm_compute. reflexivity. Qed.

(** C2, as the code has it: a call of [update] on a started macro performs
    the moves from [startIndex] on whose time is strictly less than the
    time elapsed before the call, and then adds [dt] to the time elapsed
    (none of these moves being a [keydown] of the key that starts the
    macro).  Hence, with three such moves at the times 0, 1 and 2, six
    calls with [dt] = 1/2 perform the first move in call 2, the second in
    call 4 and the third in call 6, and [started] becomes false in call 6,
    the call that performs the last move. *)
Theorem update_performs_then_advances :
  (forall (m : Macro) (dt : Q) (i : nat),
     startIndex m = Some i ->
     (i <= length (moves m))%nat ->
     Forall (fun mv => restarts mv = false) (drop i (moves m)) ->
     (update m dt).2 = due (position m) (drop i (moves m)) /\
     position (update m dt).1 = position m + dt) /\
  (forall mv0 mv1 mv2 : Move,
     time mv0 == 0 -> time mv1 == 1 -> time mv2 == 2 ->
     restarts mv0 = false -> restarts mv1 = false -> restarts mv2 = false ->
     (ticks (start (new [mv0; mv1; mv2])) (replicate 6 (1 # 2))).2 =
       [([], true); ([mv0], true); ([], true);
        ([mv1], true); ([], true); ([mv2], false)]).
Proof.
  split.
  - intros m dt i Hi Hlen Hrest.
    rewrite (update_due m dt i Hi Hlen Hrest). split; reflexivity.
  - intros mv0 mv1 mv2 H0 H1 H2 R0 R1 R2.
    cbn [replicate ticks]. unfold update.
    cbn [ticks loop drop start new advance option_map
         moves position startIndex started fst snd app length].
    repeat tick. vm_compute. reflexivity.
Qed.

Lemma update_performs_then_advances_witness :
  ((update (start (new three_moves)) (1 # 2)).2 = [] /\
   position (update (start (new three_moves)) (1 # 2)).1 = 0 + (1 # 2)) /\
  (ticks (start (new three_moves)) (replicate 6 (1 # 2))).2 =
    [([], true);
     ([ClickMove 0 (50, 50)], true);
     ([], true);
     ([KeyMove 1 keydown "pause"], true);
     ([], true);
     ([KeyMove 2 keyup "pause"], false)].
Proof.
  destruct update_performs_then_advances as [Hrule Hsix]. split.
  - apply (Hrule (start (new three_moves)) (1 # 2) 0%nat).
    + reflexivity.
    + cbn. lia.
    + repeat constructor; vm_compute; reflexivity.
  - apply (Hsix (ClickMove 0 (50, 50)) (KeyMove 1 keydown "pause")
                (KeyMove 2 keyup "pause")).
    + reflexivity.
    + reflexivity.
    + reflexivity.
    + reflexivity.
    + vm_compute. reflexivity.
    + reflexivity.
Defined.

(** C2, as it is stated, fails: on the macro [three_moves], the first of
    five calls with [dt] = 1/2 performs no move although the time elapsed
    after it, 1/2, is more than the time 0 of the first move; the moves are
    performed in the calls 2 and 4, the third move is not performed by any
    of the five calls and the macro is running after them. *)
Lemma first_tick_performs_nothing :
  (update (start (new three_moves)) (1 # 2)).2 = [] /\
  position (update (start (new three_moves)) (1 # 2)).1 == 1 # 2 /\
  (ticks (start (new three_moves)) (replicate 5 (1 # 2))).2 =
    [([], true);
     ([ClickMove 0 (50, 50)], true);
     ([], true);
     ([KeyMove 1 keydown "pause"], true);
     ([], true)] /\
  (ticks (start (new three_moves)) (replicate 5 (1 # 2))).2 <>
    [([ClickMove 0 (50, 50)], true);
     ([], true);
     ([KeyMove 1 keydown "pause"], true);
     ([], true);
     ([KeyMove 2 keyup "pause"], false)] /\
  started (ticks (start (new three_moves)) (replicate 5 (1 # 2))).1 = true.
Proof.
  assert (E : (ticks (start (new three_moves)) (replicate 5 (1 # 2))).2 =
    [([], true);
     ([ClickMove 0 (50, 50)], true);
     ([], true);
     ([KeyMove 1 keydown "pause"], true);
     ([], true)]) by (vm_compute; reflexivity).
  split; [vm_compute; reflexivity|].
  split; [reflexivity|].
  split; [exact E|].
  split; [rewrite E; discriminate | vm_compute; reflexivity].
Qed.

(** *** Further properties of the player *)

Lemma ticks_snoc (dts : list Q) (dt : Q) (m : Macro) :
  ticks m (dts ++ [dt]) =
    (let '(m1, log) := ticks m dts in
     let '(m2, performed) := update m1 dt in
     (m2, log ++ [(performed, started m2)])).
Proof.
  revert m. induction dts as [|d dts IH]; intros m; cbn [ticks app].
  - destruct (update m dt) as [m2 performed]. reflexivity.
  - destruct (update m d) as [m' performed]. rewrite IH.
    destruct (ticks m' dts) as [m1 log].
    destruct (update m1 dt) as [m2 performed2]. reflexivity.
Qed.

Lemma performed_by_snoc (log : list (list Move * bool))
    (mvs : list Move) (b : bool) :
  performed_by (log ++ [(mvs, b)]) = performed_by log ++ mvs.
Proof.
  unfold performed_by. rewrite fmap_app, concat_app. cbn.
  rewrite app_nil_r. reflexivity.
Qed.

(** Before [start], [update] finds no index to begin with. *)
Lemma update_idle (m : Macro) (dt : Q) :
  startIndex m = None ->
  update m dt =
    ({| moves := moves m; position := position m + dt;
        startIndex := None; started := started m |}, []).
Proof. intros H. unfold update. rewrite H. cbn. rewrite H. reflexivity. Qed.

Lemma ticks_idle (dts : list Q) (m : Macro) :
  startIndex m = None ->
  startIndex (ticks m dts).1 = None /\
  started (ticks m dts).1 = started m /\
  Forall (fun tick => tick = ([], started m)) (ticks m dts).2.
Proof.
  revert m. induction dts as [|dt dts IH]; intros m Hm; cbn [ticks].
  - cbn. auto.
  - rewrite (update_idle m dt Hm).
    destruct (IH {| moves := moves m; position := position m + dt;
                    startIndex := None; started := started m |})
      as (H1 & H2 & H3); [reflexivity|].
    destruct (ticks _ dts) as [m'' log]. cbn in *.
    repeat split; try assumption. constructor; [reflexivity | exact H3].
Qed.

(** X9: A macro that has not been started performs nothing, whatever its moves
    and however long it is updated, and is not running. *)
Theorem not_started_performs_nothing (mvs : list Move) (dts : list Q) :
  started (ticks (new mvs) dts).1 = false /\
  performed_by (ticks (new mvs) dts).2 = [] /\
  Forall (fun tick => tick = ([], false)) (ticks (new mvs) dts).2.
Proof.
  destruct (ticks_idle dts (new mvs)) as (_ & H2 & H3); [reflexivity|].
  cbn [new started] in *. repeat split; try assumption.
  unfold performed_by.
  induction H3 as [|tick log Ht _ IH]; [reflexivity|].
  subst tick. cbn. exact IH.
Qed.

Lemma perform_moves (mv : Move) (m : Macro) : moves (perform mv m) = moves m.
Proof.
  destruct mv as [t [] key | t c]; try reflexivity.
  unfold perform, handleKeypress. case_bool_decide; reflexivity.
Qed.

Lemma loop_moves (rest : list Move) (m : Macro) (acc : list Move) :
  moves (loop rest m acc).1 = moves m.
Proof.
  revert m acc. induction rest as [|mv rest IH]; intros m acc; cbn [loop].
  - reflexivity.
  - destruct (Qltb (time mv) (position m)).
    + rewrite IH. cbn. apply perform_moves.
    + apply IH.
Qed.

Lemma update_moves (m : Macro) (dt : Q) : moves (update m dt).1 = moves m.
Proof.
  unfold update. destruct (startIndex m) as [i|]; [|reflexivity].
  pose proof (loop_moves (drop i (moves m)) m []) as H.
  destruct (loop (drop i (moves m)) m []) as [m' performed]. exact H.
Qed.

Lemma ticks_moves (dts : list Q) (m : Macro) :
  moves (ticks m dts).1 = moves m.
Proof.
  revert m. induction dts as [|dt dts IH]; intros m; cbn [ticks].
  - reflexivity.
  - pose proof (update_moves m dt) as H.
    destruct (update m dt) as [m' performed].
    pose proof (IH m') as H'.
    destruct (ticks m' dts) as [m'' log]. cbn in *. congruence.
Qed.

(** X10: The calls of [update] never change the moves of a macro, whatever the
    moves do, and [start] forgets all the rest: a macro started again
    after any calls is in the state of its first start. *)
Theorem start_again (m : Macro) (dts : list Q) :
  moves (ticks m dts).1 = moves m /\
  start (ticks (start m) dts).1 = start m.
Proof.
  split; [apply ticks_moves|].
  unfold start at 1 3. rewrite ticks_moves. reflexivity.
Qed.

(** *** Playing a macro to the end *)

Lemma due_comp (p p' : Q) (mvs : list Move) :
  p == p' -> due p mvs = due p' mvs.
Proof.
  intros E. unfold due. apply List.filter_ext. intros mv.
  unfold Qltb. rewrite E. reflexivity.
Qed.

Lemma due_app (p : Q) (l1 l2 : list Move) :
  due p (l1 ++ l2) = due p l1 ++ due p l2.
Proof. unfold due. apply List.filter_app. Qed.

Lemma due_all (p : Q) (mvs : list Move) :
  Forall (fun mv => time mv < p) mvs <-> due p mvs = mvs.
Proof.
  unfold due. induction mvs as [|mv mvs IH]; cbn.
  - split; [reflexivity | constructor].
  - destruct (Qltb (time mv) p) eqn:E.
    + apply Qltb_lt in E. split.
      * intros H. inversion H; subst. f_equal. apply IH. assumption.
      * intros H. injection H as H. constructor; [exact E | apply IH, H].
    + apply Qltb_ge in E. split.
      * intros H. inversion H; subst. lra.
      * intros H. exfalso.
        pose proof (due_length p mvs) as Hl. unfold due in Hl.
        rewrite H in Hl. cbn in Hl. lia.
Qed.

Lemma due_time (p : Q) (mvs : list Move) :
  Forall (fun mv => time mv < p) (due p mvs).
Proof.
  unfold due. induction mvs as [|mv mvs IH]; cbn; [constructor|].
  destruct (Qltb (time mv) p) eqn:E; [|exact IH].
  constructor; [apply Qltb_lt, E | exact IH].
Qed.

Lemma due_none (p : Q) (mvs : list Move) :
  Forall (fun mv => p <= time mv) mvs -> due p mvs = [].
Proof.
  unfold due. induction 1 as [|mv mvs Hmv _ IH]; cbn; [reflexivity|].
  apply Qltb_ge in Hmv. rewrite Hmv. exact IH.
Qed.

(** Of moves in the order of their times, the ones that are due come
    first. *)
Lemma due_prefix (p : Q) (mvs : list Move) :
  in_order mvs -> due p mvs = take (length (due p mvs)) mvs.
Proof.
  induction mvs as [|mv mvs IH]; intros Hs; [reflexivity|].
  destruct Hs as [Hmv Hs]. unfold due in *. cbn.
  destruct (Qltb (time mv) p) eqn:E; cbn.
  - f_equal. apply IH, Hs.
  - apply Qltb_ge in E.
    pose proof (due_none p mvs) as Hn. unfold due in Hn.
    rewrite Hn; [reflexivity|].
    eapply Forall_impl; [exact Hmv|]. cbn. intros mv' H. lra.
Qed.

Lemma in_order_drop (k : nat) (mvs : list Move) :
  in_order mvs -> in_order (drop k mvs).
Proof.
  revert mvs. induction k as [|k IH]; intros [|mv mvs] H; cbn; try exact H.
  apply IH, H.
Qed.

Lemma start_playing (mvs : list Move) : playing mvs (start (new mvs)) 0.
Proof.
  unfold playing. cbn. repeat split; try lia; try discriminate.
  constructor.
Qed.

Lemma update_playing (mvs : list Move) (m : Macro) (k : nat) (dt : Q) :
  in_order mvs ->
  Forall (fun mv => restarts mv = false) mvs ->
  playing mvs m k ->
  0 <= dt ->
  exists k' : nat,
    playing mvs (update m dt).1 k' /\
    take k mvs ++ (update m dt).2 = take k' mvs /\
    take k' mvs = due (position m) mvs /\
    position (update m dt).1 = position m + dt.
Proof.
  intros Hs Hr (Hm & Hi & Hk & Hdone & Hst) Hdt.
  assert (Hr' : Forall (fun mv => restarts mv = false) (drop k (moves m)))
    by (rewrite Hm; apply Forall_drop, Hr).
  assert (Hk' : (k <= length (moves m))%nat) by (rewrite Hm; exact Hk).
  rewrite (update_due m dt k Hi Hk' Hr'). cbn [fst snd]. rewrite Hm.
  set (perf := due (position m) (drop k mvs)).
  assert (Hperf : perf = take (length perf) (drop k mvs))
    by (apply due_prefix, in_order_drop, Hs).
  assert (Hlen : (length perf <= length (drop k mvs))%nat)
    by apply due_length.
  rewrite length_drop in Hlen.
  assert (Htake : take k mvs ++ perf = take (k + length perf) mvs).
  { rewrite Hperf at 1. apply take_take_drop. }
  assert (Hst' : started (after m k (length perf)) = false <->
                 (0 < k + length perf /\ k + length perf = length mvs)%nat).
  { unfold after. cbn. rewrite Hm. case_bool_decide as Hb.
    - split; [intros _; lia | reflexivity].
    - split.
      + intros H. apply Hst in H. lia.
      + intros [H1 H2]. apply Hst. lia. }
  assert (Hall : Forall (fun mv => time mv < position m + dt)
                   (take (k + length perf) mvs)).
  { rewrite <- Htake. apply Forall_app. split.
    - eapply Forall_impl; [exact Hdone|]. cbn. intros mv H. lra.
    - eapply Forall_impl; [apply due_time|]. cbn. intros mv H. lra. }
  exists (k + length perf)%nat. split; [|split; [|split]].
  - unfold playing. cbn.
    split; [reflexivity|]. split; [reflexivity|]. split; [lia|].
    split; [exact Hall | exact Hst'].
  - exact Htake.
  - rewrite <- Htake.
    transitivity (due (position m) (take k mvs ++ drop k mvs));
      [|rewrite take_drop; reflexivity].
    rewrite due_app. f_equal. symmetry. apply due_all, Hdone.
  - reflexivity.
Qed.

Lemma ticks_playing (mvs : list Move) (dts : list Q) (m : Macro) (k : nat) :
  in_order mvs ->
  Forall (fun mv => restarts mv = false) mvs ->
  playing mvs m k ->
  Forall (fun dt => 0 <= dt) dts ->
  exists k' : nat,
    playing mvs (ticks m dts).1 k' /\
    take k mvs ++ performed_by (ticks m dts).2 = take k' mvs /\
    position (ticks m dts).1 == position m + total_time dts.
Proof.
  intros Hs Hr. revert m k.
  induction dts as [|dt dts IH]; intros m k Hp Hdts; cbn [ticks].
  - exists k. cbn [fst snd]. unfold performed_by. cbn [fmap list_fmap concat].
    rewrite app_nil_r.
    split; [exact Hp | split; [reflexivity |]].
    change (total_time []) with 0. ring.
  - inversion Hdts as [|? ? Hdt Hdts']; subst.
    destruct (update_playing mvs m k dt Hs Hr Hp Hdt)
      as (k1 & Hp1 & Ht1 & _ & Hpos1).
    destruct (update m dt) as [m1 perf]. cbn [fst snd] in *.
    destruct (IH m1 k1 Hp1 Hdts') as (k2 & Hp2 & Ht2 & Hpos2).
    destruct (ticks m1 dts) as [m2 log]. cbn [fst snd] in *.
    exists k2. split; [exact Hp2 | split].
    + unfold performed_by in *. cbn. rewrite app_assoc, Ht1. exact Ht2.
    + rewrite Hpos2, Hpos1.
      change (total_time (dt :: dts)) with (dt + total_time dts). ring.
Qed.

(** The calls of [update] from [start] on, the last one apart: a number
    [k] of moves, the first ones, have been performed, and they are the
    moves that were due before the last call. *)
Lemma ticks_from_start (mvs : list Move) (dts : list Q) (dt : Q) :
  in_order mvs ->
  Forall (fun mv => restarts mv = false) mvs ->
  Forall (fun dt => 0 <= dt) dts ->
  0 <= dt ->
  exists k : nat,
    (k <= length mvs)%nat /\
    performed_by (ticks (start (new mvs)) (dts ++ [dt])).2 = take k mvs /\
    take k mvs = due (total_time dts) mvs /\
    (started (ticks (start (new mvs)) (dts ++ [dt])).1 = false <->
     (0 < k /\ k = length mvs)%nat).
Proof.
  intros Hs Hr Hdts Hdt. rewrite ticks_snoc.
  destruct (ticks_playing mvs dts (start (new mvs)) 0 Hs Hr
              (start_playing mvs) Hdts) as (k1 & Hp1 & Ht1 & Hpos1).
  destruct (ticks (start (new mvs)) dts) as [m1 log]. cbn [fst snd] in *.
  destruct (update_playing mvs m1 k1 dt Hs Hr Hp1 Hdt)
    as (k2 & Hp2 & Ht2 & Hdue & _).
  destruct (update m1 dt) as [m2 perf]. cbn [fst snd] in *.
  rewrite performed_by_snoc. rewrite take_0 in Ht1. cbn [app] in Ht1.
  exists k2. destruct Hp2 as (_ & _ & Hk2 & _ & Hst).
  split; [exact Hk2|]. split; [rewrite Ht1; exact Ht2|].
  split; [|exact Hst].
  rewrite Hdue. apply due_comp. rewrite Hpos1. cbn. ring.
Qed.

(** X11: A macro whose moves are in the order of their times, none of them a
    [keydown] of the key that starts the macro, and that is started and
    then updated with steps that are not negative: the moves performed by
    all the calls together are the moves whose time is strictly less than
    the time elapsed before the last call, in the order of the macro and
    each of them once; and the macro is stopped after the last call exactly
    when it has moves and all of them have been performed. *)
Theorem playback (mvs : list Move) (dts : list Q) (dt : Q) :
  in_order mvs ->
  Forall (fun mv => restarts mv = false) mvs ->
  Forall (fun dt => 0 <= dt) dts ->
  0 <= dt ->
  performed_by (ticks (start (new mvs)) (dts ++ [dt])).2
    = due (total_time dts) mvs /\
  (started (ticks (start (new mvs)) (dts ++ [dt])).1 = false <->
   mvs <> [] /\
   performed_by (ticks (start (new mvs)) (dts ++ [dt])).2 = mvs).
Proof.
  intros Hs Hr Hdts Hdt.
  destruct (ticks_from_start mvs dts dt Hs Hr Hdts Hdt)
    as (k & Hk & Hperf & Hdue & Hst).
  rewrite Hperf, Hst. split; [exact Hdue|]. split.
  - intros [H0 Hl]. split.
    + intros ->. cbn in Hl. lia.
    + apply take_ge. lia.
  - intros [Hne Hall].
    assert (Hlen : length (take k mvs) = length mvs)
      by (rewrite Hall; reflexivity).
    rewrite length_take in Hlen.
    destruct mvs as [|mv mvs']; [congruence|]. cbn in *. lia.
Qed.

Lemma playback_witness :
  performed_by
    (ticks (start (new three_moves)) ([1; 1 # 2; 1] ++ [1 # 10])).2
  = due (total_time [1; 1 # 2; 1]) three_moves.
Proof.
  refine (proj1 (playback three_moves [1; 1 # 2; 1] (1 # 10) _ _ _ _)).
  - cbn. repeat split; repeat constructor; vm_compute; discriminate.
  - repeat constructor; vm_compute; reflexivity.
  - repeat constructor; vm_compute; discriminate.
  - vm_compute. discriminate.
Defined.

End MacroPlayerProps.

(** ** Recording of macros *)

Module MacroRecorderProps.
Import MacroPlayer MacroRecorder.
Local Open Scope Q_scope.

Example record_two :
  MacroRecorder.moves
    (record new [(1000, AddClick 25 50); (2500, AddKeyEvent "pause" keydown)]%Z)
  = [ClickMove 0 (25, 50);
     KeyMove (inject_Z (2500 - 1000) / 1000) keydown "pause"].
Proof. reflexivity. Qed.

(** A call on a recording that has not recorded anything yet. *)
Lemma call_first (now : Z) (c : Call) (r : MacroRecording) :
  startTime r = None ->
  call r (now, c) =
    {| MacroRecorder.moves := MacroRecorder.moves r ++ [event 0 c];
       startTime := Some now |}.
Proof.
  intros H. destruct c; cbn; unfold addClick, addKeyEvent, getTime;
    rewrite H; reflexivity.
Qed.

(** A call on a recording whose first event was at the instant [t0]. *)
Lemma call_later (t0 now : Z) (c : Call) (r : MacroRecording) :
  startTime r = Some t0 ->
  call r (now, c) =
    {| MacroRecorder.moves :=
         MacroRecorder.moves r ++ [event (seconds_since t0 now) c];
       startTime := Some t0 |}.
Proof.
  intros H. destruct c; cbn; unfold addClick, addKeyEvent, getTime;
    rewrite H; reflexivity.
Qed.

Lemma record_later (t0 : Z) (calls : list (Z * Call)) (r : MacroRecording) :
  startTime r = Some t0 ->
  MacroRecorder.moves (record r calls) =
    MacroRecorder.moves r
      ++ ((fun c => event (seconds_since t0 c.1) c.2) <$> calls).
Proof.
  revert r. unfold record.
  induction calls as [|[now c] calls IH]; intros r H; cbn [fold_left].
  - cbn. rewrite app_nil_r. reflexivity.
  - rewrite (call_later t0 now c r H).
    rewrite IH by reflexivity.
    cbn [MacroRecorder.moves]. rewrite fmap_cons, <- app_assoc.
    reflexivity.
Qed.

(** C7: in a new recording, the first event added, a click or a key event,
    has the time 0, and every event added after it has as its time the
    seconds from the instant of the first event to its own instant; the
    listener of the clicks, for every canvas, every click and every
    recording, adds one click event whose coordinates are 100 times the
    coordinates of the click over the width and the height of the canvas,
    that is percentages of them, so a click at (50, 50) on a canvas of 200
    by 100 is recorded at (25, 50). *)
Theorem recording_times (now0 : Z) (c0 : Call) (calls : list (Z * Call))
    (canvas : Canvas) (now : Z) (x y : Q) (r : MacroRecording) :
  MacroRecorder.moves (record new ((now0, c0) :: calls)) =
    event 0 c0 :: ((fun c => event (seconds_since now0 c.1) c.2) <$> calls)
  /\
  time <$> MacroRecorder.moves (record new ((now0, c0) :: calls)) =
    0 :: ((fun c => seconds_since now0 c.1) <$> calls)
  /\
  onClick canvas now x y (Some r) =
    Some {| MacroRecorder.moves :=
              MacroRecorder.moves r
              ++ [ClickMove
                    match startTime r with
                    | None => 0
                    | Some t0 => seconds_since t0 now
                    end
                    (100 * x / width canvas, 100 * y / height canvas)];
            startTime :=
              Some match startTime r with
                   | None => now
                   | Some t0 => t0
                   end |}
  /\
  onClick {| width := 200; height := 100 |} now0 50 50 (Some new) =
    Some {| MacroRecorder.moves := [ClickMove 0 (100 * 50 / 200, 100 * 50 / 100)];
            startTime := Some now0 |}
  /\
  100 * 50 / 200 == 25 /\ 100 * 50 / 100 == 50.
Proof.
  assert (E : MacroRecorder.moves (record new ((now0, c0) :: calls)) =
    event 0 c0 :: ((fun c => event (seconds_since now0 c.1) c.2) <$> calls)).
  { unfold record. cbn [fold_left].
    rewrite (call_first now0 c0 new) by reflexivity.
    apply (record_later now0 calls). reflexivity. }
  split; [exact E|]. split.
  - rewrite E, fmap_cons. f_equal; [destruct c0; reflexivity|].
    rewrite <- list_fmap_compose.
    apply list_fmap_ext. intros i [now' c] _. destruct c; reflexivity.
  - split.
    + unfold onClick, addClick, getTime, seconds_since.
      destruct (startTime r); reflexivity.
    + repeat split; reflexivity.
Qed.

(** *** Further properties of the recorder *)

Lemma call_appends (r : MacroRecording) (c : Z * Call) :
  exists mv : Move,
    MacroRecorder.moves (call r c) = MacroRecorder.moves r ++ [mv] /\
    (forall t0 : Z, startTime r = Some t0 -> startTime (call r c) = Some t0).
Proof.
  destruct c as [now c]. destruct (startTime r) as [t0|] eqn:E.
  - rewrite (call_later t0 now c r E). eexists. split; [reflexivity|].
    intros t1 [= <-]. reflexivity.
  - rewrite (call_first now c r E). eexists. split; [reflexivity|].
    intros t1 [=].
Qed.

(** X12: The recorder only adds: after any calls the events that were there
    are still there, first and unchanged, there is one more event for
    each call, and the instant of the start, once it is set, stays. *)
Theorem record_appends (r : MacroRecording) (calls : list (Z * Call)) :
  take (length (MacroRecorder.moves r)) (MacroRecorder.moves (record r calls))
    = MacroRecorder.moves r /\
  length (MacroRecorder.moves (record r calls))
    = (length (MacroRecorder.moves r) + length calls)%nat /\
  (forall t0 : Z,
     startTime r = Some t0 -> startTime (record r calls) = Some t0).
Proof.
  revert r. unfold record.
  induction calls as [|c calls IH]; intros r; cbn [fold_left].
  - rewrite take_ge by lia. cbn. repeat split; [lia | auto].
  - destruct (call_appends r c) as (mv & Hmv & Hst).
    destruct (IH (call r c)) as (H1 & H2 & H3).
    rewrite Hmv in H1, H2. rewrite length_app in H1, H2. cbn in H1, H2.
    repeat split.
    + apply (f_equal (take (length (MacroRecorder.moves r)))) in H1.
      rewrite take_take, Nat.min_l in H1 by lia.
      rewrite H1. apply take_app_length.
    + cbn. lia.
    + intros t0 Ht0. apply H3, Hst, Ht0.
Qed.

Lemma seconds_since_le (t0 now now' : Z) :
  (now <= now')%Z -> seconds_since t0 now <= seconds_since t0 now'.
Proof.
  intros H. unfold seconds_since.
  assert (Hq : inject_Z (now - t0) <= inject_Z (now' - t0))
    by (rewrite <- Zle_Qle; lia).
  apply Qle_shift_div_l; [reflexivity|].
  assert (E : inject_Z (now - t0) / 1000 * 1000 == inject_Z (now - t0))
    by (field; discriminate).
  rewrite E. exact Hq.
Qed.

Lemma time_event (t : Q) (c : Call) : time (event t c) = t.
Proof. destruct c; reflexivity. Qed.

Lemma later_in_order (t0 : Z) (calls : list (Z * Call)) :
  ascending (calls.*1) ->
  in_order ((fun c => event (seconds_since t0 c.1) c.2) <$> calls).
Proof.
  induction calls as [|[now c] calls IH]; cbn; [auto|].
  intros [Hnow Hrest]. split; [|apply IH, Hrest].
  rewrite time_event. rewrite Forall_fmap.
  rewrite Forall_fmap in Hnow.
  eapply Forall_impl; [exact Hnow|]. cbn. intros [now' c'] H. cbn in *.
  rewrite time_event. apply seconds_since_le, H.
Qed.

(** The moves of a recording that has just been made. *)
Lemma record_moves (now0 : Z) (c0 : Call) (calls : list (Z * Call)) :
  MacroRecorder.moves (record new ((now0, c0) :: calls)) =
    event 0 c0 :: ((fun c => event (seconds_since now0 c.1) c.2) <$> calls).
Proof.
  unfold record. cbn [fold_left].
  rewrite (call_first now0 c0 new) by reflexivity.
  apply (record_later now0 calls). reflexivity.
Qed.

Lemma later_nonneg (now0 : Z) (calls : list (Z * Call)) :
  Forall (fun now => (now0 <= now)%Z) (calls.*1) ->
  Forall (fun mv => 0 <= time mv)
    ((fun c => event (seconds_since now0 c.1) c.2) <$> calls).
Proof.
  intros Hfirst. rewrite Forall_fmap. rewrite Forall_fmap in Hfirst.
  eapply Forall_impl; [exact Hfirst|]. cbn. intros [now c] H. cbn in *.
  rewrite time_event.
  assert (H0 : seconds_since now0 now0 == 0).
  { unfold seconds_since. rewrite Z.sub_diag. reflexivity. }
  rewrite <- H0. apply seconds_since_le, H.
Qed.

(** X13: When the clock does not go back, the events of a recording are in the
    order of their times and no time is negative: what the recorder makes
    is a macro as the player wants it. *)
Theorem record_in_order (now0 : Z) (c0 : Call) (calls : list (Z * Call)) :
  ascending (now0 :: calls.*1) ->
  in_order (MacroRecorder.moves (record new ((now0, c0) :: calls))) /\
  Forall (fun mv => 0 <= time mv)
    (MacroRecorder.moves (record new ((now0, c0) :: calls))).
Proof.
  intros [Hfirst Hrest]. rewrite record_moves.
  pose proof (later_nonneg now0 calls Hfirst) as Hpos.
  split.
  - cbn [in_order]. split; [|apply later_in_order, Hrest].
    rewrite time_event. exact Hpos.
  - constructor; [rewrite time_event; lra | exact Hpos].
Qed.

Lemma record_in_order_witness :
  in_order
    (MacroRecorder.moves
       (record new
          [(1000, AddClick 25 50); (2500, AddKeyEvent "pause" keydown);
           (2500, AddKeyEvent "pause" keyup)]%Z)).
Proof.
  refine (proj1 (record_in_order 1000 (AddClick 25 50)
            [(2500, AddKeyEvent "pause" keydown);
             (2500, AddKeyEvent "pause" keyup)]%Z _)).
  cbn. repeat split; repeat constructor; lia.
Defined.

(** X14: A click that the listener records in a new recording comes
    back when the recording is played: the macro made of the recording,
    started and updated with a first step that is positive and a second
    one that is not negative, performs the recorded move, once, and stops;
    and what [Macro.update] does with the move is a click, on a canvas of
    the same size at the point where the click was made, on any canvas at
    the same fraction of the width and of the height. *)
Theorem click_round_trip (canvas canvas' : Canvas) (now : Z) (x y : Q)
    (dt dt' : Q) :
  ~ width canvas == 0 ->
  ~ height canvas == 0 ->
  0 < dt ->
  0 <= dt' ->
  exists (r : MacroRecording) (mv : Move),
    onClick canvas now x y (Some new) = Some r /\
    MacroRecorder.moves r = [mv] /\
    performed_by
      (ticks (start (MacroPlayer.new (MacroRecorder.moves r)))
         ([dt] ++ [dt'])).2 = [mv] /\
    started
      (ticks (start (MacroPlayer.new (MacroRecorder.moves r)))
         ([dt] ++ [dt'])).1 = false /\
    (exists px py : Q,
       dispatch canvas mv = ClickAt px py /\ px == x /\ py == y) /\
    (exists px py : Q,
       dispatch canvas' mv = ClickAt px py /\
       px == x / width canvas * width canvas' /\
       py == y / height canvas * height canvas').
Proof.
  intros Hw Hh Hdt Hdt'.
  set (mv := ClickMove 0 (100 * x / width canvas, 100 * y / height canvas)).
  exists {| MacroRecorder.moves := [mv]; startTime := Some now |}, mv.
  split; [reflexivity|]. split; [reflexivity|].
  cbn [MacroRecorder.moves].
  destruct (MacroPlayerProps.ticks_from_start [mv] [dt] dt')
    as (k & Hk & Hperf & Hdue & Hstop).
  { cbn. split; [constructor | exact I]. }
  { repeat constructor. }
  { repeat constructor. lra. }
  { exact Hdt'. }
  assert (Hall : due (total_time [dt]) [mv] = [mv]).
  { apply MacroPlayerProps.due_all. repeat constructor. cbn. lra. }
  rewrite Hall in Hdue.
  assert (Hk1 : k = 1%nat).
  { apply (f_equal length) in Hdue. rewrite length_take in Hdue.
    cbn in Hdue, Hk. lia. }
  split; [rewrite Hperf; exact Hdue|].
  split; [apply Hstop; cbn; lia|].
  split; eexists; eexists; (split; [reflexivity|]);
    cbn [fst snd]; split; field; assumption.
Qed.

Lemma click_round_trip_witness :
  exists (r : MacroRecording) (mv : Move),
    onClick {| width := 200; height := 100 |} 1000 50 50 (Some new)
      = Some r /\
    MacroRecorder.moves r = [mv] /\
    exists px py : Q,
      dispatch {| width := 200; height := 100 |} mv = ClickAt px py /\
      px == 50 /\ py == 50.
Proof.
  destruct (click_round_trip {| width := 200; height := 100 |}
              {| width := 200; height := 100 |} 1000 50 50 (1 # 2) (1 # 2))
    as (r & mv & Hr & Hmv & _ & _ & Hsame & _).
  - cbn. discriminate.
  - cbn. discriminate.
  - reflexivity.
  - cbn. discriminate.
  - exists r, mv. auto.
Defined.

Lemma restarts_event (t t' : Q) (c : Call) :
  restarts (event t c) = restarts (event t' c).
Proof. destruct c; reflexivity. Qed.

(** X15: What is recorded can be played: a recording made while the clock does
    not go back, without a [keydown] of the key that starts the macro, and
    played from its start with steps that are not negative until the time
    elapsed before the last call is past the time of every event, performs
    the events of the recording, all of them, once and in their order, and
    then the macro is stopped. *)
Theorem record_then_play (now0 : Z) (c0 : Call) (calls : list (Z * Call))
    (dts : list Q) (dt : Q) :
  ascending (now0 :: calls.*1) ->
  Forall (fun c => restarts (event 0 c) = false) (c0 :: calls.*2) ->
  Forall (fun dt => 0 <= dt) dts ->
  0 <= dt ->
  Forall (fun mv => time mv < total_time dts)
    (MacroRecorder.moves (record new ((now0, c0) :: calls))) ->
  performed_by
    (ticks (start (MacroPlayer.new
                     (MacroRecorder.moves (record new ((now0, c0) :: calls)))))
       (dts ++ [dt])).2
    = MacroRecorder.moves (record new ((now0, c0) :: calls)) /\
  started
    (ticks (start (MacroPlayer.new
                     (MacroRecorder.moves (record new ((now0, c0) :: calls)))))
       (dts ++ [dt])).1
    = false.
Proof.
  intros [Hfirst Hrest] Hkeys Hdts Hdt Hlate.
  pose proof (record_moves now0 c0 calls) as E.
  set (mvs := MacroRecorder.moves (record new ((now0, c0) :: calls))) in *.
  assert (Hs : in_order mvs).
  { rewrite E. cbn [in_order]. split; [|apply later_in_order, Hrest].
    rewrite time_event. apply later_nonneg, Hfirst. }
  assert (Hr : Forall (fun mv => restarts mv = false) mvs).
  { rewrite E. inversion Hkeys as [|? ? Hc0 Hcalls]; subst.
    constructor; [exact Hc0|].
    rewrite Forall_fmap. rewrite Forall_fmap in Hcalls.
    eapply Forall_impl; [exact Hcalls|]. cbn. intros [now c] H. cbn in *.
    rewrite <- H. apply restarts_event. }
  destruct (MacroPlayerProps.ticks_from_start mvs dts dt Hs Hr Hdts Hdt)
    as (k & Hk & Hperf & Hdue & Hstop).
  apply MacroPlayerProps.due_all in Hlate.
  assert (Hall : take k mvs = mvs) by (rewrite Hdue; exact Hlate).
  assert (Hlen : k = length mvs).
  { apply (f_equal length) in Hall. rewrite length_take in Hall. lia. }
  split; [rewrite Hperf; exact Hall|].
  apply Hstop. split; [|exact Hlen].
  rewrite Hlen, E. cbn. lia.
Qed.

Lemma record_then_play_witness :
  performed_by
    (ticks
       (start
          (MacroPlayer.new
             (MacroRecorder.moves
                (record new
                   [(1000, AddClick 25 50);
                    (2500, AddKeyEvent "pause" keydown)]%Z))))
       ([1; 1] ++ [1 # 10])).2
  = MacroRecorder.moves
      (record new
         [(1000, AddClick 25 50); (2500, AddKeyEvent "pause" keydown)]%Z).
Proof.
  refine (proj1 (record_then_play 1000 (AddClick 25 50)
            [(2500, AddKeyEvent "pause" keydown)]%Z [1; 1] (1 # 10)
            _ _ _ _ _)).
  - cbn. repeat split; repeat constructor; lia.
  - repeat constructor; vm_compute; reflexivity.
  - repeat constructor; vm_compute; discriminate.
  - vm_compute. discriminate.
  - repeat constructor; vm_compute; reflexivity.
Defined.

Lemma record_appends_witness :
  startTime
    (record {| MacroRecorder.moves := [ClickMove 0 (25, 50)];
               startTime := Some 1000%Z |}
       [(2500, AddKeyEvent "pause" keydown)]%Z)
  = Some 1000%Z.
Proof.
  refine (proj2 (proj2 (record_appends
            {| MacroRecorder.moves := [ClickMove 0 (25, 50)];
               startTime := Some 1000%Z |}
            [(2500, AddKeyEvent "pause" keydown)]%Z)) 1000%Z _).
  reflexivity.
Defined.

End MacroRecorderProps.

(** ** Blobs and the operations on the flock *)

Module FlockProps.
Import Flock.
Local Open Scope R_scope.

(** The loop over the indices of an array applies its body to every
    element, once. *)
Lemma for_in_from {A : Type} (body : A -> A) (arr pre : list A) :
  fold_left (fun arr i => alter body i arr)
    (seq (length pre) (length arr)) (pre ++ arr) =
  pre ++ (body <$> arr).
Proof.
  revert pre. induction arr as [|a arr IH]; intros pre; cbn.
  - reflexivity.
  - replace (alter body (length pre) (pre ++ a :: arr))
      with ((pre ++ [body a]) ++ arr).
    + replace (S (length pre)) with (length (pre ++ [body a]))
        by (rewrite length_app; cbn; lia).
      rewrite IH, <- app_assoc. reflexivity.
    + rewrite <- app_assoc.
      rewrite (alter_app_r_alt body pre (a :: arr) (length pre)) by lia.
      rewrite Nat.sub_diag. reflexivity.
Qed.

Lemma for_in_fmap {A : Type} (body : A -> A) (arr : list A) :
  for_in body arr = body <$> arr.
Proof. apply (for_in_from body arr []). Qed.

Lemma atan2_up (d : R) (zero : ZeroSign) : 0 < d -> atan2 0 d zero = 0.
Proof.
  intros Hd. unfold atan2.
  destruct (Rlt_dec 0 d) as [_|Hn]; [|contradiction].
  replace (0 / d) with 0 by (field; lra).
  apply atan_0.
Qed.

Lemma attractBlobs_fmap (blobs : list Blob) (x y : R) :
  attractBlobs blobs x y = towards x y <$> blobs.
Proof. unfold attractBlobs. apply for_in_fmap. Qed.

Lemma moveBlobs_fmap (blobs : list Blob) (x y : R) :
  moveBlobs blobs x y = at_point x y <$> blobs.
Proof. unfold moveBlobs. apply for_in_fmap. Qed.

Lemma moveBlobs_twice (blobs : list Blob) (x y : R) :
  moveBlobs (moveBlobs blobs x y) x y = moveBlobs blobs x y.
Proof.
  rewrite !moveBlobs_fmap, <- list_fmap_compose.
  apply list_fmap_ext. intros i b _. reflexivity.
Qed.

Lemma handleClick_paused (pressedKeys : gset keyCode) (blobs : list Blob)
    (x y : R) :
  KEY_NAMES !! "pause" ∈ pressedKeys ->
  handleClick pressedKeys blobs x y = moveBlobs blobs x y.
Proof.
  intros H. unfold handleClick.
  rewrite bool_decide_eq_true_2 by exact H. reflexivity.
Qed.

Lemma atan2_origin : atan2 0 0 MinusZero = PI.
Proof.
  unfold atan2.
  destruct (Rlt_dec 0 0) as [H | _]; [lra|]. reflexivity.
Qed.

(** C8: [attractBlobs] gives every blob of the array the bearing
    atan2(x - blob.x, -(y - blob.y)) and leaves its other fields, and the
    number and the order of the blobs, as they are; a blob at (0, 0)
    attracted towards (0, -10) gets the bearing 0, whose sine is 0 and
    whose cosine is 1.  For a blob that is on the point the two arguments
    are +0 and -0, and its bearing is PI. *)
Theorem attractBlobs_bearing (blobs : list Blob) (x y : R)
    (b0 : R) (c : ColourConverter.Colour) (shift extra : R) :
  attractBlobs blobs x y =
    (fun b =>
       {| Flock.x := b.(Flock.x); Flock.y := b.(Flock.y);
          bearing :=
            atan2 (x - b.(Flock.x)) (- (y - b.(Flock.y))) MinusZero;
          colour := b.(colour); bearingShift := b.(bearingShift);
          extraSpeed := b.(extraSpeed) |}) <$> blobs
  /\
  attractBlobs
    [{| Flock.x := 0; Flock.y := 0; bearing := b0; colour := c;
        bearingShift := shift; extraSpeed := extra |}] 0 (-10) =
    [{| Flock.x := 0; Flock.y := 0; bearing := 0; colour := c;
        bearingShift := shift; extraSpeed := extra |}]
  /\
  sin 0 = 0 /\ cos 0 = 1
  /\
  attractBlobs
    [{| Flock.x := x; Flock.y := y; bearing := b0; colour := c;
        bearingShift := shift; extraSpeed := extra |}] x y =
    [{| Flock.x := x; Flock.y := y; bearing := PI; colour := c;
        bearingShift := shift; extraSpeed := extra |}].
Proof.
  split; [apply attractBlobs_fmap|].
  split; [|split; [apply sin_0 | split; [apply cos_0|]]].
  - rewrite attractBlobs_fmap. cbn. unfold towards. cbn.
    rewrite Rminus_diag.
    rewrite atan2_up by lra. reflexivity.
  - rewrite attractBlobs_fmap. cbn. unfold towards. cbn.
    rewrite !Rminus_diag, Ropp_0, atan2_origin. reflexivity.
Qed.

(** C9: while the pause key is down, calling [handleClick] twice in a row
    with the same point leaves every blob at the position where one call of
    [moveBlobs] with that point leaves it (and leaves the same blobs). *)
Theorem handleClick_twice (pressedKeys : gset keyCode) (blobs : list Blob)
    (x y : R) :
  KEY_NAMES !! "pause" ∈ pressedKeys ->
  position <$> handleClick pressedKeys (handleClick pressedKeys blobs x y) x y
    = position <$> moveBlobs blobs x y
  /\
  handleClick pressedKeys (handleClick pressedKeys blobs x y) x y
    = moveBlobs blobs x y.
Proof.
  intros H.
  rewrite !(handleClick_paused pressedKeys) by exact H.
  rewrite moveBlobs_twice. split; reflexivity.
Qed.

Lemma handleClick_twice_witness :
  position <$>
    handleClick {[ Some 16%Z ]}
      (handleClick {[ Some 16%Z ]}
         [{| Flock.x := 1; Flock.y := 2; bearing := 0;
             colour := {| ColourConverter.hue := 120%Q;
                          ColourConverter.sat := 100%Q;
                          ColourConverter.val := 100%Q;
                          ColourConverter.rgb := (0, 255, 0)%Z |};
             bearingShift := 0; extraSpeed := 0 |}] 3 4) 3 4
  = position <$>
      moveBlobs
        [{| Flock.x := 1; Flock.y := 2; bearing := 0;
            colour := {| ColourConverter.hue := 120%Q;
                         ColourConverter.sat := 100%Q;
                         ColourConverter.val := 100%Q;
                         ColourConverter.rgb := (0, 255, 0)%Z |};
            bearingShift := 0; extraSpeed := 0 |}] 3 4.
Proof.
  apply (handleClick_twice {[ Some 16%Z ]}).
  compute_done.
Defined.

(** *** The angle of [Math.atan2] *)

Lemma sqrt_ratio (a b : R) :
  b <> 0 -> sqrt (1 + (a / b)²) = sqrt (a² + b²) / Rabs b.
Proof.
  intros Hb.
  assert (Habs : 0 < Rabs b) by (apply Rabs_pos_lt, Hb).
  assert (E : a² + b² = (Rabs b)² * (1 + (a / b)²)).
  { rewrite <- Rsqr_abs. unfold Rsqr. field. exact Hb. }
  rewrite E, sqrt_mult.
  - rewrite sqrt_Rsqr by lra. field. lra.
  - apply Rle_0_sqr.
  - pose proof (Rle_0_sqr (a / b)). lra.
Qed.

(** The sine and the cosine of the angle that [atan2] gives for a point
    other than the origin are the coordinates of the point over its
    distance to the origin. *)
Lemma atan2_sin_cos (a b : R) (zero : ZeroSign) :
  a <> 0 \/ b <> 0 ->
  sin (atan2 a b zero) = a / sqrt (a² + b²) /\
  cos (atan2 a b zero) = b / sqrt (a² + b²).
Proof.
  intros Hab.
  assert (Hd : 0 < sqrt (a² + b²)).
  { apply sqrt_lt_R0.
    pose proof (Rle_0_sqr a) as Ha2. pose proof (Rle_0_sqr b) as Hb2.
    destruct Hab as [H | H]; apply Rsqr_pos_lt in H; lra. }
  unfold atan2.
  destruct (Rlt_dec 0 b) as [Hb | Hb].
  - rewrite sin_atan, cos_atan, sqrt_ratio by lra.
    rewrite Rabs_right by lra. split; field; lra.
  - destruct (Rlt_dec b 0) as [Hb' | Hb'].
    + assert (Hs : sqrt (1 + (a / b)²) = sqrt (a² + b²) / - b).
      { rewrite sqrt_ratio by lra. rewrite Rabs_left by lra. reflexivity. }
      destruct (Rle_dec 0 a) as [Ha | Ha].
      * rewrite neg_sin, neg_cos, sin_atan, cos_atan, Hs.
        split; field; lra.
      * unfold Rminus. rewrite sin_plus, cos_plus.
        rewrite sin_neg, cos_neg, sin_PI, cos_PI, sin_atan, cos_atan, Hs.
        split; field; lra.
    + assert (Hb0 : b = 0) by lra. subst b.
      assert (Ha0 : a <> 0) by (destruct Hab; [assumption | lra]).
      assert (Hs : sqrt (a² + 0²) = Rabs a).
      { rewrite Rsqr_0, Rplus_0_r. apply sqrt_Rsqr_abs. }
      rewrite Hs in *.
      destruct (Rlt_dec 0 a) as [Ha | Ha].
      * rewrite sin_PI2, cos_PI2, Rabs_right by lra. split; field; lra.
      * destruct (Rlt_dec a 0) as [Ha' | Ha']; [|lra].
        replace (- PI / 2) with (- (PI / 2)) by field.
        rewrite sin_neg, cos_neg, sin_PI2, cos_PI2, Rabs_left by lra.
        split; field; lra.
Qed.

(** *** Moving the blobs *)

Lemma updateBlobs_fmap (settings : BlobSettings) (pressedKeys : gset keyCode)
    (dt : R) (blobs : list Blob) :
  updateBlobs settings pressedKeys dt blobs
    = Blob_update settings pressedKeys dt <$> blobs.
Proof. apply for_in_fmap. Qed.

Lemma Blob_update_moving (settings : BlobSettings)
    (pressedKeys : gset keyCode) (dt : R) (b : Blob) :
  KEY_NAMES !! "pause" ∉ pressedKeys ->
  Blob_update settings pressedKeys dt b =
    {| x := b.(x) + sin (b.(bearing) + b.(bearingShift))
                    * speed_of settings pressedKeys b * dt;
       y := b.(y) - cos (b.(bearing) + b.(bearingShift))
                    * speed_of settings pressedKeys b * dt;
       bearing := b.(bearing);
       colour := b.(colour); bearingShift := b.(bearingShift);
       extraSpeed := b.(extraSpeed) |}.
Proof.
  intros Hp. unfold Blob_update, speed_of.
  rewrite bool_decide_eq_false_2 by exact Hp.
  destruct (bool_decide (KEY_NAMES !! "slow" ∈ pressedKeys));
    destruct (bool_decide (KEY_NAMES !! "randomiseSpeed" ∈ pressedKeys));
    f_equal; ring.
Qed.

(** X17: While the pause key is up, a call of [Blob.update] moves the blob by
    its speed times [dt], whatever its bearing: the square of the distance
    between the old and the new position is the square of that product.
    The speed is the slow speed while the slow key is down and the normal
    speed otherwise, plus the extra speed of the blob while the key that
    randomises the speed is down. *)
Theorem Blob_update_step (settings : BlobSettings)
    (pressedKeys : gset keyCode) (dt : R) (b : Blob) :
  KEY_NAMES !! "pause" ∉ pressedKeys ->
  ((Blob_update settings pressedKeys dt b).(x) - b.(x))²
  + ((Blob_update settings pressedKeys dt b).(y) - b.(y))²
  = (speed_of settings pressedKeys b * dt)².
Proof.
  intros Hp. rewrite (Blob_update_moving settings pressedKeys dt b Hp).
  cbn [x y].
  set (a := b.(bearing) + b.(bearingShift)).
  set (s := speed_of settings pressedKeys b).
  pose proof (sin2_cos2 a) as H. unfold Rsqr in *.
  replace ((x b + sin a * s * dt - x b) * (x b + sin a * s * dt - x b)
           + (y b - cos a * s * dt - y b) * (y b - cos a * s * dt - y b))
    with ((sin a * sin a + cos a * cos a) * (s * dt * (s * dt))) by ring.
  rewrite H. ring.
Qed.

Lemma Blob_update_step_witness :
  ((Blob_update {| speed := 100; slowSpeed := 50 |} ∅ 2
      {| x := 1; y := 2; bearing := 0;
         colour := {| ColourConverter.hue := 120%Q;
                      ColourConverter.sat := 100%Q;
                      ColourConverter.val := 100%Q;
                      ColourConverter.rgb := (0, 255, 0)%Z |};
         bearingShift := 0; extraSpeed := 0 |}).(x) - 1)²
  + ((Blob_update {| speed := 100; slowSpeed := 50 |} ∅ 2
        {| x := 1; y := 2; bearing := 0;
           colour := {| ColourConverter.hue := 120%Q;
                        ColourConverter.sat := 100%Q;
                        ColourConverter.val := 100%Q;
                        ColourConverter.rgb := (0, 255, 0)%Z |};
           bearingShift := 0; extraSpeed := 0 |}).(y) - 2)²
  = (speed_of {| speed := 100; slowSpeed := 50 |} ∅
       {| x := 1; y := 2; bearing := 0;
          colour := {| ColourConverter.hue := 120%Q;
                       ColourConverter.sat := 100%Q;
                       ColourConverter.val := 100%Q;
                       ColourConverter.rgb := (0, 255, 0)%Z |};
          bearingShift := 0; extraSpeed := 0 |} * 2)².
Proof.
  apply (Blob_update_step {| speed := 100; slowSpeed := 50 |} ∅ 2).
  compute_done.
Defined.

(** X18: While the pause key is down the blobs do not move: after a click,
    which takes them to the point of the click, and the update of the
    frame, every blob is at that point, and nothing else of it has
    changed. *)
Theorem paused_click_stays (settings : BlobSettings)
    (pressedKeys : gset keyCode) (dt : R) (blobs : list Blob) (x y : R) :
  KEY_NAMES !! "pause" ∈ pressedKeys ->
  updateBlobs settings pressedKeys dt blobs = blobs /\
  updateBlobs settings pressedKeys dt (handleClick pressedKeys blobs x y)
    = at_point x y <$> blobs /\
  Forall (fun b => position b = (x, y))
    (updateBlobs settings pressedKeys dt (handleClick pressedKeys blobs x y)).
Proof.
  intros Hp.
  assert (Hid : forall bs, updateBlobs settings pressedKeys dt bs = bs).
  { intros bs. rewrite updateBlobs_fmap.
    rewrite <- (list_fmap_id bs) at 2.
    apply list_fmap_ext. intros i b _. unfold Blob_update.
    rewrite bool_decide_eq_true_2 by exact Hp. reflexivity. }
  split; [apply Hid|].
  rewrite Hid, (handleClick_paused pressedKeys blobs x y Hp), moveBlobs_fmap.
  split; [reflexivity|].
  rewrite Forall_fmap. apply Forall_true. intros b. reflexivity.
Qed.

Lemma paused_click_stays_witness :
  Forall (fun b => position b = (3, 4))
    (updateBlobs {| speed := 100; slowSpeed := 50 |} {[ Some 16%Z ]} 2
       (handleClick {[ Some 16%Z ]}
          [{| x := 1; y := 2; bearing := 0;
              colour := {| ColourConverter.hue := 120%Q;
                           ColourConverter.sat := 100%Q;
                           ColourConverter.val := 100%Q;
                           ColourConverter.rgb := (0, 255, 0)%Z |};
              bearingShift := 0; extraSpeed := 0 |}] 3 4)).
Proof.
  apply (paused_click_stays {| speed := 100; slowSpeed := 50 |}
           {[ Some 16%Z ]} 2).
  compute_done.
Defined.

(** X19: A blob that has no bearing shift and that a click has attracted
    towards a point where it is not: while the pause key is up, the update
    of the frame moves it straight towards the point, by its speed times
    [dt], so that its distance to the point, [d] before, is the absolute
    value of [d] minus that step after. *)
Theorem attract_then_update (settings : BlobSettings)
    (pressedKeys : gset keyCode) (dt : R) (blobs : list Blob) (tx ty : R)
    (i : nat) (b : Blob) :
  KEY_NAMES !! "pause" ∉ pressedKeys ->
  blobs !! i = Some b ->
  b.(bearingShift) = 0 ->
  position b <> (tx, ty) ->
  let d := distance (position b) (tx, ty) in
  let s := speed_of settings pressedKeys b in
  exists b' : Blob,
    updateBlobs settings pressedKeys dt (handleClick pressedKeys blobs tx ty)
      !! i = Some b' /\
    b'.(x) = b.(x) + s * dt * (tx - b.(x)) / d /\
    b'.(y) = b.(y) + s * dt * (ty - b.(y)) / d /\
    distance (position b') (tx, ty) = Rabs (d - s * dt).
Proof.
  intros Hp Hi Hshift Hpos d s.
  assert (Hne : tx - b.(x) <> 0 \/ - (ty - b.(y)) <> 0).
  { destruct (Req_dec (x b) tx) as [Ex | Ex]; [|left; lra].
    destruct (Req_dec (y b) ty) as [Ey | Ey]; [|right; lra].
    exfalso. apply Hpos. unfold position. rewrite Ex, Ey. reflexivity. }
  destruct (atan2_sin_cos _ _ MinusZero Hne) as [Hsin Hcos].
  assert (Ed : sqrt ((tx - x b)² + (- (ty - y b))²) = d).
  { unfold d, distance, position. cbn [fst snd]. rewrite <- Rsqr_neg.
    reflexivity. }
  rewrite Ed in Hsin, Hcos.
  assert (Hd : 0 < d).
  { rewrite <- Ed. apply sqrt_lt_R0.
    pose proof (Rle_0_sqr (tx - x b)) as H1.
    pose proof (Rle_0_sqr (- (ty - y b))) as H2.
    destruct Hne as [H | H]; apply Rsqr_pos_lt in H; lra. }
  assert (Hd2 : d * d = (tx - x b) * (tx - x b) + (ty - y b) * (ty - y b)).
  { unfold d, distance, position. cbn [fst snd].
    rewrite sqrt_sqrt; [reflexivity|].
    pose proof (Rle_0_sqr (tx - x b)). pose proof (Rle_0_sqr (ty - y b)).
    unfold Rsqr in *. lra. }
  pose (b1 := towards tx ty b).
  assert (Hx1 : b1.(x) = b.(x)) by reflexivity.
  assert (Hy1 : b1.(y) = b.(y)) by reflexivity.
  assert (Hb1 : b1.(bearing) = atan2 (tx - x b) (- (ty - y b)) MinusZero)
    by reflexivity.
  assert (Hs1 : b1.(bearingShift) = 0) by exact Hshift.
  assert (Hsp : speed_of settings pressedKeys b1 = s) by reflexivity.
  exists (Blob_update settings pressedKeys dt b1).
  assert (Hclick : handleClick pressedKeys blobs tx ty
                   = attractBlobs blobs tx ty).
  { unfold handleClick. rewrite bool_decide_eq_false_2 by exact Hp.
    reflexivity. }
  split.
  { rewrite Hclick, updateBlobs_fmap, attractBlobs_fmap.
    rewrite !list_lookup_fmap, Hi. reflexivity. }
  clearbody b1.
  rewrite (Blob_update_moving settings pressedKeys dt b1 Hp).
  unfold distance, position. cbn [x y fst snd].
  rewrite Hx1, Hy1, Hb1, Hs1, Hsp, Rplus_0_r, Hsin, Hcos.
  split; [field; lra|]. split; [field; lra|].
  rewrite <- sqrt_Rsqr_abs. f_equal.
  assert (E1 : tx - (x b + (tx - x b) / d * s * dt)
               = (tx - x b) * ((d - s * dt) / d)) by (field; lra).
  assert (E2 : ty - (y b - - (ty - y b) / d * s * dt)
               = (ty - y b) * ((d - s * dt) / d)) by (field; lra).
  rewrite E1, E2. unfold Rsqr.
  transitivity (((tx - x b) * (tx - x b) + (ty - y b) * (ty - y b))
                * ((d - s * dt) / d * ((d - s * dt) / d))); [ring|].
  rewrite <- Hd2. field. lra.
Qed.

Lemma attract_then_update_witness :
  exists b' : Blob,
    updateBlobs {| speed := 100; slowSpeed := 50 |} ∅ 2
      (handleClick ∅
         [{| x := 0; y := 0; bearing := 1;
             colour := {| ColourConverter.hue := 120%Q;
                          ColourConverter.sat := 100%Q;
                          ColourConverter.val := 100%Q;
                          ColourConverter.rgb := (0, 255, 0)%Z |};
             bearingShift := 0; extraSpeed := 0 |}] 0 (-10))
      !! 0%nat = Some b'.
Proof.
  destruct (attract_then_update {| speed := 100; slowSpeed := 50 |} ∅ 2
    [{| x := 0; y := 0; bearing := 1;
        colour := {| ColourConverter.hue := 120%Q;
                     ColourConverter.sat := 100%Q;
                     ColourConverter.val := 100%Q;
                     ColourConverter.rgb := (0, 255, 0)%Z |};
        bearingShift := 0; extraSpeed := 0 |}] 0 (-10) 0%nat
    {| x := 0; y := 0; bearing := 1;
       colour := {| ColourConverter.hue := 120%Q;
                    ColourConverter.sat := 100%Q;
                    ColourConverter.val := 100%Q;
                    ColourConverter.rgb := (0, 255, 0)%Z |};
       bearingShift := 0; extraSpeed := 0 |}) as (b' & Hb' & _).
  - compute_done.
  - reflexivity.
  - reflexivity.
  - unfold position. cbn. intros [= H]. lra.
  - exists b'. exact Hb'.
Defined.

(** X20: The key that reverses the blobs turns the next step of every blob
    round: after it, the update of the frame takes each blob as far as it
    would have, the other way; and pressing the key twice changes nothing
    of where the blobs go. *)
Theorem reverse_update (settings : BlobSettings) (pressedKeys : gset keyCode)
    (dt : R) (blobs : list Blob) :
  position <$> updateBlobs settings pressedKeys dt (reverseBlobs blobs)
    = (fun b =>
         (b.(x) - ((Blob_update settings pressedKeys dt b).(x) - b.(x)),
          b.(y) - ((Blob_update settings pressedKeys dt b).(y) - b.(y))))
      <$> blobs
  /\
  position
    <$> updateBlobs settings pressedKeys dt (reverseBlobs (reverseBlobs blobs))
    = position <$> updateBlobs settings pressedKeys dt blobs.
Proof.
  unfold reverseBlobs. rewrite !updateBlobs_fmap, !for_in_fmap.
  rewrite <- !list_fmap_compose.
  split; apply list_fmap_ext; intros i b _; cbn [compose];
    destruct (decide (KEY_NAMES !! "pause" ∈ pressedKeys)) as [Hp | Hp].
  - unfold Blob_update. rewrite !bool_decide_eq_true_2 by exact Hp.
    unfold position. cbn [x y]. f_equal; ring.
  - rewrite !(Blob_update_moving settings pressedKeys dt _ Hp).
    unfold position. cbn [x y bearing bearingShift].
    replace (bearing b + PI + bearingShift b)
      with (bearing b + bearingShift b + PI) by ring.
    rewrite neg_sin, neg_cos.
    replace (speed_of settings pressedKeys _)
      with (speed_of settings pressedKeys b) by reflexivity.
    f_equal; ring.
  - unfold Blob_update. rewrite !bool_decide_eq_true_2 by exact Hp.
    reflexivity.
  - rewrite !(Blob_update_moving settings pressedKeys dt _ Hp).
    unfold position. cbn [x y bearing bearingShift].
    replace (bearing b + PI + PI + bearingShift b)
      with (bearing b + bearingShift b + PI + PI) by ring.
    rewrite !neg_sin, !neg_cos.
    replace (speed_of settings pressedKeys _)
      with (speed_of settings pressedKeys b) by reflexivity.
    f_equal; ring.
Qed.

(** X21: Without symmetry [Blob.draw] fills one disc, at the position of the
    blob; with symmetry it fills four, and their centres are a figure that
    both mirrors of the canvas, left to right and top to bottom, leave as
    it is. *)
Theorem draw_coords_mirrored (width height : R) (b : Blob) :
  draw_coords width height false b = [position b] /\
  length (draw_coords width height true b) = 4%nat /\
  (forall p : R * R,
     p ∈ draw_coords width height true b ->
     (width - p.1, p.2) ∈ draw_coords width height true b /\
     (p.1, height - p.2) ∈ draw_coords width height true b).
Proof.
  split; [reflexivity|]. split; [reflexivity|].
  intros p Hp. unfold draw_coords in *. cbn [app] in *.
  assert (Ex : width - (width - x b) = x b) by ring.
  assert (Ey : height - (height - y b) = y b) by ring.
  repeat (apply elem_of_cons in Hp as [-> | Hp]);
    [| | | | apply elem_of_nil in Hp; contradiction];
    cbn [fst snd]; rewrite ?Ex, ?Ey; split; set_solver.
Qed.

(** X22: The hue of the blobs is always a hue: the oscillator of the hue, which
    wraps between 0 and 360, may be taken above 360 by a long frame, but
    whatever the speed and the frames, as long as no change is negative,
    the value that its callback stores in the colour of every blob is at
    least 0 and less than 360, and the colour stored with it is the
    conversion of that hue with the saturation and the value that the blob
    had, all three channels from 0 to 255. *)
Theorem hue_callback_valid (rate : Q) (dts : list Q) (blobs : list Blob) :
  Forall (fun dt => (0 <= rate * dt)%Q) dts ->
  length (setHue (Oscillator.value
                    (Oscillator.run (Oscillator.new 0 360 rate true) dts))
            blobs) = length blobs /\
  forall (i : nat) (b : Blob),
    blobs !! i = Some b ->
    exists b' : Blob,
      setHue (Oscillator.value
                (Oscillator.run (Oscillator.new 0 360 rate true) dts))
        blobs !! i = Some b' /\
      position b' = position b /\
      (0 <= ColourConverter.hue b'.(colour))%Q /\
      (ColourConverter.hue b'.(colour) < 360)%Q /\
      ColourConverter.sat b'.(colour) = ColourConverter.sat b.(colour) /\
      ColourConverter.val b'.(colour) = ColourConverter.val b.(colour) /\
      ColourConverter.rgb b'.(colour) =
        ColourConverter.hsvToRgb (ColourConverter.hue b'.(colour))
          (ColourConverter.sat b.(colour)) (ColourConverter.val b.(colour)) /\
      (let '(r, g, bl) := ColourConverter.rgb b'.(colour) in
       ColourConverter.channel r /\ ColourConverter.channel g /\
       ColourConverter.channel bl).
Proof.
  intros Hdts.
  set (o := Oscillator.run (Oscillator.new 0 360 rate true) dts).
  assert (Hv : (0 <= Oscillator.value o)%Q).
  { destruct (OscillatorProps.run_forward dts (Oscillator.new 0 360 rate true))
      as (_ & _ & _ & H).
    - unfold Oscillator.forward. cbn. repeat split; vm_compute; discriminate.
    - exact Hdts.
    - destruct (OscillatorProps.run_params dts
                  (Oscillator.new 0 360 rate true)) as (Emin & _).
      fold o in H, Emin. rewrite Emin in H. exact H. }
  unfold setHue. rewrite for_in_fmap. split; [apply length_fmap|].
  intros i b Hi. rewrite list_lookup_fmap, Hi. cbn [fmap option_fmap option_map].
  eexists. split; [reflexivity|].
  cbn [colour position x y ColourConverter.Colour_update ColourConverter.hue
       ColourConverter.sat ColourConverter.val ColourConverter.rgb].
  assert (H360 : (0 < 360)%Q) by reflexivity.
  destruct (ColourConverterProps.Number_rem_range (Oscillator.value o) 360
              Hv H360) as [H0 H1].
  repeat split; try assumption.
  apply ColourConverterProps.hsvToRgb_range.
Qed.

Lemma hue_callback_valid_witness :
  exists b' : Blob,
    setHue (Oscillator.value
              (Oscillator.run (Oscillator.new 0 360 30 true) [20%Q]))
      [{| x := 1; y := 2; bearing := 0;
          colour := {| ColourConverter.hue := 120%Q;
                       ColourConverter.sat := 100%Q;
                       ColourConverter.val := 100%Q;
                       ColourConverter.rgb := (0, 255, 0)%Z |};
          bearingShift := 0; extraSpeed := 0 |}] !! 0%nat = Some b' /\
    (0 <= ColourConverter.hue b'.(colour))%Q /\
    (ColourConverter.hue b'.(colour) < 360)%Q.
Proof.
  destruct (proj2 (hue_callback_valid 30 [20%Q]
    [{| x := 1; y := 2; bearing := 0;
        colour := {| ColourConverter.hue := 120%Q;
                     ColourConverter.sat := 100%Q;
                     ColourConverter.val := 100%Q;
                     ColourConverter.rgb := (0, 255, 0)%Z |};
        bearingShift := 0; extraSpeed := 0 |}]
    ltac:(repeat constructor; vm_compute; discriminate))
    0%nat _ eq_refl) as (b' & Hb' & _ & H0 & H1 & _).
  exists b'. auto.
Defined.

Lemma draw_coords_mirrored_witness :
  (200 - (200 - 30), 40) ∈
    draw_coords 200 100 true
      {| x := 30; y := 40; bearing := 0;
         colour := {| ColourConverter.hue := 120%Q;
                      ColourConverter.sat := 100%Q;
                      ColourConverter.val := 100%Q;
                      ColourConverter.rgb := (0, 255, 0)%Z |};
         bearingShift := 0; extraSpeed := 0 |}.
Proof.
  refine (proj1 (proj2 (proj2 (draw_coords_mirrored 200 100
    {| x := 30; y := 40; bearing := 0;
       colour := {| ColourConverter.hue := 120%Q;
                    ColourConverter.sat := 100%Q;
                    ColourConverter.val := 100%Q;
                    ColourConverter.rgb := (0, 255, 0)%Z |};
       bearingShift := 0; extraSpeed := 0 |})) (200 - 30, 40) _)).
  unfold draw_coords. cbn [x y app]. right. right. left.
Defined.

End FlockProps.

(** ** Key names *)

Module KeyNamesProps.

Example getKeyFriendlyName_shift : getKeyFriendlyName 16 = Some "pause".
Proof. reflexivity. Qed.

Example getKeyFriendlyName_unknown : getKeyFriendlyName 13 = None.
Proof. reflexivity. Qed.

Example getKeyName_letter : getKeyName 82 = Some "R".
Proof. reflexivity. Qed.

Lemma KEY_NAMES_entries_nodup : NoDup (KEY_NAMES_entries.*1).
Proof. apply (bool_decide_unpack _). vm_compute. exact I. Qed.

Lemma KEY_NAMES_lookup (name : string) (code : Z) :
  KEY_NAMES !! name = Some code <-> (name, code) ∈ KEY_NAMES_entries.
Proof.
  symmetry.
  apply (elem_of_list_to_map (M := gmap string) KEY_NAMES_entries name code).
  apply KEY_NAMES_entries_nodup.
Qed.

(** X16: The two directions of the table agree: [getKeyFriendlyName] gives the
    name [name] for a code exactly when [KEY_NAMES[name]] is that code.  So
    the name recorded for a key that is in the table leads the player back
    to the same key, and a key that is not in the table has no name. *)
Theorem getKeyFriendlyName_inverse (name : string) (code : Z) :
  getKeyFriendlyName code = Some name <-> KEY_NAMES !! name = Some code.
Proof.
  rewrite KEY_NAMES_lookup. split.
  - unfold getKeyFriendlyName, KEY_NAMES_entries. cbn [List.find snd].
    repeat match goal with
           | |- context [Z.eqb ?c code] =>
               destruct (Z.eqb_spec c code) as [<- | ?];
               [cbn; intros [= <-]; set_solver |]
           end.
    cbn. discriminate.
  - unfold KEY_NAMES_entries. intros H.
    repeat (apply elem_of_cons in H as [[= -> ->] | H]; [reflexivity|]).
    apply elem_of_nil in H. contradiction.
Qed.

(** Every key of the table has a name to show in the help. *)
Theorem getKeyName_bound (name : string) (code : Z) :
  KEY_NAMES !! name = Some code -> is_Some (getKeyName code).
Proof.
  rewrite KEY_NAMES_lookup. unfold KEY_NAMES_entries. intros H.
  repeat (apply elem_of_cons in H as [[= -> ->] | H]; [eexists; reflexivity|]).
  apply elem_of_nil in H. contradiction.
Qed.

Lemma getKeyName_bound_witness : is_Some (getKeyName 16).
Proof. apply (getKeyName_bound "pause" 16). reflexivity. Defined.

End KeyNamesProps.

(** ** The listeners of the keyboard *)

Module KeyboardProps.
Import MacroPlayer MacroRecorder Flock Keyboard.

Lemma onKeydown_pressed {World : Type}
    (handleKeypress :
       Z -> list Blob * option MacroRecording * World ->
       list Blob * option MacroRecording * World)
    (now : Z) (code : Z) (s : Sim World) :
  Some code ∈ pressedKeys (onKeydown handleKeypress now code s).
Proof.
  unfold onKeydown. case_bool_decide as H; [exact H|].
  destruct (handleKeypress code _) as [[bs r] w]. cbn. set_solver.
Qed.

(** X23: A key that is held down and repeats is one key press: whatever
    [handleKeypress] does, a [keydown] of a key that is already down
    changes nothing, calls nothing and records nothing, so two events
    [keydown] in a row leave what the first one left. *)
Theorem onKeydown_repeat {World : Type}
    (handleKeypress :
       Z -> list Blob * option MacroRecording * World ->
       list Blob * option MacroRecording * World)
    (now now' : Z) (code : Z) (s : Sim World) :
  onKeydown handleKeypress now' code (onKeydown handleKeypress now code s)
    = onKeydown handleKeypress now code s.
Proof.
  pose proof (onKeydown_pressed handleKeypress now code s) as H.
  unfold onKeydown at 1. rewrite bool_decide_eq_true_2 by exact H.
  reflexivity.
Qed.

(** X24: [pressedKeys] holds the keys that are down: after a [keydown] the key
    is in it, after a [keyup] it is not, and a [keydown] followed by the
    [keyup] of the same key leaves the other keys as they were.  The
    [keyup] of the wavy key also takes the bearing shift of every blob back
    to 0. *)
Theorem onKeyup_releases {World : Type}
    (handleKeypress :
       Z -> list Blob * option MacroRecording * World ->
       list Blob * option MacroRecording * World)
    (now now' : Z) (code : Z) (s : Sim World) :
  (Some code ∈ pressedKeys (onKeydown handleKeypress now code s)) /\
  (Some code ∉ pressedKeys (onKeyup now' code s)) /\
  pressedKeys (onKeyup now' code (onKeydown handleKeypress now code s))
    = pressedKeys s ∖ {[ Some code ]} /\
  Forall (fun b => b.(bearingShift) = 0%R) (blobs (onKeyup now' 87 s)).
Proof.
  split; [apply onKeydown_pressed|].
  split; [cbn; set_solver|]. split.
  - unfold onKeydown. case_bool_decide as H.
    + reflexivity.
    + destruct (handleKeypress code _) as [[bs r] w]. cbn. set_solver.
  - cbn [onKeyup blobs].
    rewrite bool_decide_eq_true_2 by reflexivity.
    rewrite FlockProps.for_in_fmap, Forall_fmap.
    apply Forall_true. intros b. reflexivity.
Qed.

End KeyboardProps.

(** ** Class names *)

Module ClassNamesProps.
Import ClassNames.

Example split_two : split "error big" = ["error"; "big"].
Proof. reflexivity. Qed.

Example addClass_empty : addClass "" "error" = " error".
Proof. reflexivity. Qed.

Example removeClass_first : removeClass "a b a" "a" = "b a".
Proof. reflexivity. Qed.

Lemma split_cons (s : string) : exists piece pieces, split s = piece :: pieces.
Proof.
  induction s as [|c s IH]; cbn; [eauto|].
  destruct (Ascii.eqb c " "%char); [eauto|].
  destruct IH as (piece & pieces & ->). eauto.
Qed.

Lemma join_split (s : string) : join (split s) = s.
Proof.
  induction s as [|c s IH]; [reflexivity|]. cbn [split].
  destruct (split_cons s) as (piece & pieces & E).
  destruct (Ascii.eqb_spec c " "%char) as [-> | Hc].
  - rewrite E in *. cbn [join] in *. rewrite IH. reflexivity.
  - rewrite E in *. cbn [join] in *.
    destruct pieces; rewrite <- IH; reflexivity.
Qed.

Lemma split_spaceless (s : string) : Forall spaceless (split s).
Proof.
  induction s as [|c s IH]; cbn [split].
  - repeat constructor.
  - destruct (Ascii.eqb_spec c " "%char) as [-> | Hc].
    + constructor; [exact I | exact IH].
    + destruct (split s) as [|piece pieces]; [repeat constructor; exact Hc|].
      inversion IH; subst. constructor; [split; assumption | assumption].
Qed.

Lemma split_word (w t : string) :
  spaceless w -> split (String.append w (String " " t)) = w :: split t.
Proof.
  induction w as [|c w IH]; intros Hw; [reflexivity|].
  destruct Hw as [Hc Hw].
  change (split (String c (String.append w (String " " t)))
          = String c w :: split t).
  cbn [split].
  destruct (Ascii.eqb_spec c " "%char) as [-> | _]; [contradiction|].
  rewrite (IH Hw). reflexivity.
Qed.

Lemma split_one (w : string) : spaceless w -> split w = [w].
Proof.
  induction w as [|c w IH]; intros Hw; [reflexivity|].
  destruct Hw as [Hc Hw]. cbn [split].
  destruct (Ascii.eqb_spec c " "%char) as [-> | _]; [contradiction|].
  rewrite (IH Hw). reflexivity.
Qed.

Lemma split_join (classes : list string) :
  classes <> [] -> Forall spaceless classes -> split (join classes) = classes.
Proof.
  induction classes as [|class rest IH]; intros Hne Hs; [contradiction|].
  inversion Hs as [|? ? Hclass Hrest]; subst.
  destruct rest as [|class' rest].
  - apply split_one, Hclass.
  - cbn [join]. rewrite split_word by exact Hclass.
    f_equal. apply IH; [discriminate | exact Hrest].
Qed.

Lemma indexOf_None (className : string) (classes : list string) :
  indexOf className classes = None <-> className ∉ classes.
Proof.
  induction classes as [|class rest IH]; cbn [indexOf].
  - split; [intros _; apply not_elem_of_nil | reflexivity].
  - case_bool_decide as E.
    + split; [discriminate|]. intros H. exfalso. apply H. subst. left.
    + rewrite not_elem_of_cons. destruct (indexOf className rest); cbn.
      * split; [discriminate|]. intros [_ H]. apply IH in H. discriminate.
      * split; [|reflexivity]. intros _. split; [congruence | apply IH; reflexivity].
Qed.

Lemma indexOf_last (className : string) (classes : list string) :
  className ∉ classes ->
  indexOf className (classes ++ [className]) = Some (length classes).
Proof.
  induction classes as [|class rest IH]; intros H; cbn [indexOf app length].
  - rewrite bool_decide_eq_true_2 by reflexivity. reflexivity.
  - apply not_elem_of_cons in H as [Hne H].
    rewrite bool_decide_eq_false_2 by congruence.
    rewrite (IH H). reflexivity.
Qed.

Lemma delete_last (className : string) (classes : list string) :
  delete (length classes) (classes ++ [className]) = classes.
Proof.
  induction classes as [|class rest IH]; [reflexivity|].
  cbn. f_equal. exact IH.
Qed.

(** X25: The pieces of a string, joined, are the string; the pieces of
    classes without spaces, joined, are these classes; and the pieces of
    two strings put together with a space between them are the pieces of
    the first followed by the pieces of the second. *)
Theorem split_join_round_trip (s t : string) (classes : list string) :
  join (split s) = s /\
  (classes <> [] -> Forall spaceless classes ->
   split (join classes) = classes) /\
  split (String.append s (String " " t)) = split s ++ split t.
Proof.
  split; [apply join_split|]. split; [apply split_join|].
  induction s as [|c s IH]; [reflexivity|].
  change (split (String c (String.append s (String " " t)))
          = split (String c s) ++ split t).
  cbn [split]. rewrite IH.
  destruct (Ascii.eqb c " "%char); [reflexivity|].
  destruct (split_cons s) as (piece & pieces & ->). reflexivity.
Qed.

Lemma split_join_round_trip_witness :
  split (join ["error"; "big"]) = ["error"; "big"].
Proof.
  refine (proj1 (proj2 (split_join_round_trip "" "" ["error"; "big"])) _ _).
  - discriminate.
  - repeat constructor; discriminate.
Defined.

Lemma split_addClass (element className : string) :
  spaceless className ->
  split (addClass element className) =
    match indexOf className (split element) with
    | None => split element ++ [className]
    | Some _ => split element
    end.
Proof.
  intros Hc. unfold addClass.
  destruct (indexOf className (split element)).
  - rewrite join_split. reflexivity.
  - apply split_join.
    + destruct (split element); discriminate.
    + apply Forall_app. split; [apply split_spaceless|].
      constructor; [exact Hc | constructor].
Qed.

(** X26: After [addClass] with a class without a space the element has the
    class; adding it again changes nothing; and an element that had the
    class is left as it was. *)
Theorem addClass_idempotent (element className : string) :
  spaceless className ->
  className ∈ split (addClass element className) /\
  addClass (addClass element className) className
    = addClass element className /\
  (className ∈ split element -> addClass element className = element).
Proof.
  intros Hc.
  assert (Hin : className ∈ split (addClass element className)).
  { rewrite (split_addClass element className Hc).
    destruct (indexOf className (split element)) eqn:E.
    - destruct (decide (className ∈ split element)) as [H | H]; [exact H|].
      apply indexOf_None in H. congruence.
    - apply elem_of_app. right. left. }
  assert (Hsame : forall e, className ∈ split e -> addClass e className = e).
  { intros e He. unfold addClass.
    destruct (indexOf className (split e)) eqn:E.
    - apply join_split.
    - apply indexOf_None in E. contradiction. }
  split; [exact Hin|]. split; [apply Hsame, Hin | apply Hsame].
Qed.

Lemma addClass_idempotent_witness :
  addClass (addClass "big" "error") "error" = addClass "big" "error".
Proof.
  refine (proj1 (proj2 (addClass_idempotent "big" "error" _))).
  repeat split; discriminate.
Defined.

(** X27: [removeClass] takes back what [addClass] added: on an element that
    did not have the class, without a space, adding it and removing it
    gives the element as it was; and removing a class that the element
    does not have changes nothing. *)
Theorem removeClass_addClass (element className : string) :
  className ∉ split element ->
  removeClass element className = element /\
  (spaceless className ->
   removeClass (addClass element className) className = element).
Proof.
  intros Hout.
  pose proof (proj2 (indexOf_None className (split element)) Hout) as E.
  split.
  - unfold removeClass. rewrite E. apply join_split.
  - intros Hc. unfold removeClass.
    rewrite (split_addClass element className Hc), E.
    rewrite (indexOf_last className (split element) Hout).
    rewrite delete_last. apply join_split.
Qed.

Lemma removeClass_addClass_witness :
  removeClass (addClass "" "error") "error" = "".
Proof.
  refine (proj2 (removeClass_addClass "" "error" _) _).
  - compute_done.
  - repeat split; discriminate.
Defined.

End ClassNamesProps.
